(** * Application lifecycle of the job bot: store, resume selection, form loop

    A shallow embedding of
    - [src/database/models.py] and [src/database/repository.py]
      (the deduplicating job store and the application rows),
    - [src/resume_selector.py] (keyword scoring of resume profiles),
    - [src/linkedin/job_applier.py] (the bounded Easy Apply form loop and
      the batch runner),
    followed by the properties of the specification stated over it. *)

From Stdlib Require Import List String Ascii Bool Arith PeanoNat Lia.
From Stdlib Require Import Sorting.Sorted Sorting.Permutation.
From Stdlib Require Import QArith.
Import ListNotations.
Local Open Scope nat_scope.
Local Open Scope string_scope.

Set Implicit Arguments.

(** ** Python values shared by the three modules *)

(** A call either returns a value or raises.  [IntegrityError] is what
    SQLAlchemy raises on a NOT NULL or UNIQUE violation; [PageError] stands
    for any exception a browser primitive raises (timeouts, navigation
    errors, detached elements).  Both are subclasses of Python's
    [Exception], and [Exception] is all this type covers: an interruption
    that is a [BaseException] only ([asyncio.CancelledError],
    [KeyboardInterrupt]) passes through [except Exception], cuts the run
    short wherever it strikes, and is not modelled. *)
Inductive Exception : Type :=
| IntegrityError
| PageError (msg : string).

Inductive Outcome (A : Type) : Type :=
| Returned (a : A)
| Raised (e : Exception).
Arguments Returned {A} a.
Arguments Raised {A} e.

(** [datetime.utcnow()] readings; only their order matters. *)
Definition datetime := nat.

(** ** [src/database/models.py] *)

Inductive ApplicationStatus : Type :=
| PENDING | APPLIED | EASY_APPLY | EXTERNAL | SKIPPED | FAILED.

(** [ApplicationStatus.X.value] *)
Definition value (s : ApplicationStatus) : string :=
  match s with
  | PENDING => "pending"
  | APPLIED => "applied"
  | EASY_APPLY => "easy_apply"
  | EXTERNAL => "external"
  | SKIPPED => "skipped"
  | FAILED => "failed"
  end.

Definition ApplicationStatus_eqb (a b : ApplicationStatus) : bool :=
  match a, b with
  | PENDING, PENDING | APPLIED, APPLIED | EASY_APPLY, EASY_APPLY
  | EXTERNAL, EXTERNAL | SKIPPED, SKIPPED | FAILED, FAILED => true
  | _, _ => false
  end.

(** [status in [ApplicationStatus.APPLIED, ApplicationStatus.EASY_APPLY]] *)
Definition status_in (s : ApplicationStatus) (l : list ApplicationStatus) : bool :=
  existsb (ApplicationStatus_eqb s) l.

(** Rows of table [jobs]. *)
Module Job.
Record t : Type := mk {
  id : nat;
  linkedin_job_id : string;
  title : string;
  company : string;
  location : option string;
  description : option string;
  job_url : option string;
  posted_date : option string;
  experience_level : option string;
  employment_type : option string;
  salary_range : option string;
  applicant_count : option string;
  is_easy_apply : bool;
  scraped_at : datetime;
  search_keyword : option string
}.
End Job.

(** Rows of table [applications].  [status] is the string column that the
    repository fills with [status.value]. *)
Module Application.
Record t : Type := mk {
  id : nat;
  job_id : nat;
  status : string;
  applied_at : option datetime;
  cover_letter : option string;
  resume_used : option string;
  notes : option string;
  error_message : option string
}.

Definition set_status (v : string) (a : t) : t :=
  mk (id a) (job_id a) v (applied_at a) (cover_letter a) (resume_used a)
     (notes a) (error_message a).
Definition set_error_message (v : option string) (a : t) : t :=
  mk (id a) (job_id a) (status a) (applied_at a) (cover_letter a)
     (resume_used a) (notes a) v.
Definition set_applied_at (v : option datetime) (a : t) : t :=
  mk (id a) (job_id a) (status a) v (cover_letter a) (resume_used a)
     (notes a) (error_message a).
End Application.

(** The dictionary handed to [add_job] / [add_jobs_batch], with the keys
    the discovery pipeline supplies (the columns of [jobs] but [id]).  A
    field is [None] when the key is absent or bound to Python's [None]: both
    insert the column default.  Only for [linkedin_job_id] do the two differ
    ([dict.get] with the empty string as default yields the empty string
    for an absent key and [None] for a key bound to [None]), so that field
    keeps them apart: [None] is an absent key, [Some None] a key bound to
    [None]. *)
Module JobData.
Record t : Type := mk {
  linkedin_job_id : option (option string);
  title : option string;
  company : option string;
  location : option string;
  description : option string;
  job_url : option string;
  posted_date : option string;
  experience_level : option string;
  employment_type : option string;
  salary_range : option string;
  applicant_count : option string;
  is_easy_apply : option bool;
  scraped_at : option datetime;
  search_keyword : option string
}.
End JobData.

(** ** [src/database/repository.py] *)

(** The database: both tables, rows in insertion (rowid) order. *)
Record Store : Type := mkStore {
  jobs : list Job.t;
  applications : list Application.t
}.

Definition empty_store : Store := mkStore [] [].

(** The integer primary key SQLite hands out: one more than the largest
    key of the table. *)
Definition next_id (ids : list nat) : nat := S (fold_right Nat.max 0 ids).

Definition or_default {A : Type} (o : option A) (d : A) : A :=
  match o with Some a => a | None => d end.

(** [job_data.get] of key [linkedin_job_id], defaulting to the empty
    string. *)
Definition get_linkedin_job_id (d : JobData.t) : option string :=
  match JobData.linkedin_job_id d with
  | None => Some EmptyString
  | Some v => v
  end.

(** [job_exists]: the argument is a Python [str], or [None] when the
    dictionary binds the key to [None]; [Job.linkedin_job_id == None] is
    rendered [IS NULL] and matches no row of a NOT NULL column. *)
Definition job_exists (s : Store) (linkedin_job_id : option string) : bool :=
  match linkedin_job_id with
  | None => false
  | Some k => existsb (fun j => String.eqb (Job.linkedin_job_id j) k) (jobs s)
  end.

(** Building the [Job] from the dictionary, [session.add(job)] and the
    flush.  The NOT NULL columns and the UNIQUE index of [linkedin_job_id]
    are enforced by the storage layer; [now] is the clock reading used for the [scraped_at] default. *)
Definition insert_job (now : datetime) (s : Store) (d : JobData.t)
  : Outcome (Job.t * Store) :=
  match JobData.linkedin_job_id d, JobData.title d, JobData.company d with
  | Some (Some k), Some ti, Some co =>
      if existsb (fun j => String.eqb (Job.linkedin_job_id j) k) (jobs s)
      then Raised IntegrityError
      else
        let job :=
          Job.mk (next_id (map Job.id (jobs s))) k ti co
                 (JobData.location d) (JobData.description d)
                 (JobData.job_url d) (JobData.posted_date d)
                 (JobData.experience_level d) (JobData.employment_type d)
                 (JobData.salary_range d) (JobData.applicant_count d)
                 (or_default (JobData.is_easy_apply d) false)
                 (or_default (JobData.scraped_at d) now)
                 (JobData.search_keyword d) in
        Returned (job, mkStore (jobs s ++ [job]) (applications s))
  | _, _, _ => Raised IntegrityError
  end.

(** [add_job]: result and store afterwards. *)
Definition add_job (now : datetime) (s : Store) (job_data : JobData.t)
  : Outcome (option Job.t) * Store :=
  if job_exists s (get_linkedin_job_id job_data) then (Returned None, s)
  else
    match insert_job now s job_data with
    | Returned (job, s') => (Returned (Some job), s')
    | Raised e => (Raised e, s)
    end.

(** The [for job_data in jobs_data] loop of [add_jobs_batch] inside its one
    session.  The existence query autoflushes the rows added so far, so it
    sees them; a row the storage layer refuses raises at the next flush and
    the exception leaves the [with] block. *)
Fixpoint add_jobs_loop (now : datetime) (s : Store) (added_jobs : list Job.t)
         (jobs_data : list JobData.t) : Outcome (list Job.t * Store) :=
  match jobs_data with
  | [] => Returned (added_jobs, s)
  | job_data :: rest =>
      let linkedin_job_id := get_linkedin_job_id job_data in
      if job_exists s linkedin_job_id
      then add_jobs_loop now s added_jobs rest
      else
        match insert_job now s job_data with
        | Returned (job, s') => add_jobs_loop now s' (added_jobs ++ [job]) rest
        | Raised e => Raised e
        end
  end.

(** [add_jobs_batch]: the session commits once after the loop, so a raise
    rolls the whole batch back. *)
Definition add_jobs_batch (now : datetime) (s : Store)
           (jobs_data : list JobData.t) : Outcome (list Job.t) * Store :=
  match add_jobs_loop now s [] jobs_data with
  | Returned (added_jobs, s') => (Returned added_jobs, s')
  | Raised e => (Raised e, s)
  end.

Definition get_job_count (s : Store) : nat := List.length (jobs s).

(** [ORDER BY scraped_at DESC]: rows with equal timestamps keep their rowid
    order (the order the storage engine leaves them in is not fixed by the
    query; the properties below do not depend on the choice). *)
Fixpoint insert_desc (j : Job.t) (l : list Job.t) : list Job.t :=
  match l with
  | [] => [j]
  | y :: l' =>
      if Nat.leb (Job.scraped_at y) (Job.scraped_at j) then j :: y :: l'
      else y :: insert_desc j l'
  end.

Definition order_by_scraped_at_desc (l : list Job.t) : list Job.t :=
  fold_right insert_desc [] l.

(** [Application.status.in_([...])] *)
Definition status_column_in (a : Application.t) (l : list ApplicationStatus)
  : bool :=
  existsb (fun st => String.eqb (Application.status a) (value st)) l.

(** The subquery of [get_unapplied_easy_apply_jobs]. *)
Definition applied_job_ids (s : Store) : list nat :=
  map Application.job_id
      (filter (fun a => status_column_in a [APPLIED; EASY_APPLY; SKIPPED])
              (applications s)).

(** The [WHERE] clause of [get_unapplied_easy_apply_jobs]. *)
Definition unapplied_easy_apply (s : Store) (j : Job.t) : bool :=
  Job.is_easy_apply j
  && negb (existsb (Nat.eqb (Job.id j)) (applied_job_ids s)).

(** [get_unapplied_easy_apply_jobs]; [limit] is a non-negative [int]. *)
Definition get_unapplied_easy_apply_jobs (s : Store) (limit : nat)
  : list Job.t :=
  firstn limit
         (order_by_scraped_at_desc (filter (unapplied_easy_apply s) (jobs s))).

(** [create_application].  SQLite does not enforce the foreign key, so no
    [job_id] is refused. *)
Definition create_application (now : datetime) (s : Store) (job_id : nat)
           (status : ApplicationStatus)
           (cover_letter resume_used notes : option string)
  : Application.t * Store :=
  let application :=
    Application.mk (next_id (map Application.id (applications s)))
                   job_id (value status)
                   (if status_in status [APPLIED; EASY_APPLY]
                    then Some now else None)
                   cover_letter resume_used notes None in
  (application, mkStore (jobs s) (applications s ++ [application])).

(** Truth value of an [Optional[str]]: [None] and the empty string are
    false. *)
Definition truthy (o : option string) : bool :=
  match o with
  | Some (String _ _) => true
  | _ => false
  end.

(** The attribute writes of [update_application_status] on the row found. *)
Definition write_status (now : datetime) (status : ApplicationStatus)
           (error_message : option string) (application : Application.t)
  : Application.t :=
  let a1 := Application.set_status (value status) application in
  let a2 := if truthy error_message
            then Application.set_error_message error_message a1 else a1 in
  if status_in status [APPLIED; EASY_APPLY]
  then Application.set_applied_at (Some now) a2 else a2.

(** Writing a row back under its primary key. *)
Fixpoint replace_row (application_id : nat) (new : Application.t)
         (rows : list Application.t) : list Application.t :=
  match rows with
  | [] => []
  | a :: rest =>
      if Nat.eqb (Application.id a) application_id then new :: rest
      else a :: replace_row application_id new rest
  end.

(** [update_application_status]: what the call does (it has no [raise] and
    no write the storage layer can refuse), with the row after the update,
    or [None] when the query finds no row, and the store afterwards.
    [application_id] is taken in the range of SQLite's INTEGER keys (below
    2^63): for a larger Python [int] the driver raises [OverflowError]
    when it binds the parameter, which this definition does not model. *)
Definition update_application_status (now : datetime) (s : Store)
           (application_id : nat) (status : ApplicationStatus)
           (error_message : option string)
  : Outcome (option Application.t) * Store :=
  match find (fun a => Nat.eqb (Application.id a) application_id)
             (applications s) with
  | Some application =>
      let application' := write_status now status error_message application in
      (Returned (Some application'),
       mkStore (jobs s) (replace_row application_id application' (applications s)))
  | None => (Returned None, s)
  end.

(** [session.query(Application).filter(Application.status == v).count()] *)
Definition count_status (s : Store) (st : ApplicationStatus) : nat :=
  List.length
    (filter (fun a => String.eqb (Application.status a) (value st))
            (applications s)).

(** [get_application_stats]: the dictionary, keys in source order. *)
Definition get_application_stats (s : Store) : list (string * nat) :=
  [ ("total_jobs", List.length (jobs s));
    ("total_applications", List.length (applications s));
    ("applied", count_status s APPLIED);
    ("easy_apply", count_status s EASY_APPLY);
    ("pending", count_status s PENDING);
    ("skipped", count_status s SKIPPED);
    ("failed", count_status s FAILED) ].

(** [stats[key]] *)
Fixpoint dict_get {V : Type} (d : list (string * V)) (key : string) : option V :=
  match d with
  | [] => None
  | (k, v) :: rest => if String.eqb k key then Some v else dict_get rest key
  end.

(** *** Sequences of repository calls *)

(** One call of the repository's writing interface, with the clock reading
    at the call. *)
Inductive Call : Type :=
| CallAddJob (now : datetime) (job_data : JobData.t)
| CallAddJobsBatch (now : datetime) (jobs_data : list JobData.t)
| CallCreateApplication (now : datetime) (job_id : nat)
                        (status : ApplicationStatus)
                        (cover_letter resume_used notes : option string)
| CallUpdateApplicationStatus (now : datetime) (application_id : nat)
                              (status : ApplicationStatus)
                              (error_message : option string).

Definition exec (s : Store) (c : Call) : Store :=
  match c with
  | CallAddJob now d => snd (add_job now s d)
  | CallAddJobsBatch now ds => snd (add_jobs_batch now s ds)
  | CallCreateApplication now j st cl r n =>
      snd (create_application now s j st cl r n)
  | CallUpdateApplicationStatus now i st e =>
      snd (update_application_status now s i st e)
  end.

(** The store after the calls [cs], made in order on [s]. *)
Definition run (s : Store) (cs : list Call) : Store := fold_left exec cs s.

(** ** Python strings *)

(** Text is a string of code points below 256.  [str.lower] maps the
    upper-case letters of that range (A-Z, and the accented capitals but the
    multiplication sign) to the code point 32 above. *)
Definition lower_char (c : ascii) : ascii :=
  let n := nat_of_ascii c in
  if (Nat.leb 65 n && Nat.leb n 90)
     || (Nat.leb 192 n && Nat.leb n 214)
     || (Nat.leb 216 n && Nat.leb n 222)
  then ascii_of_nat (n + 32) else c.

Fixpoint lower (s : string) : string :=
  match s with
  | EmptyString => EmptyString
  | String c s' => String (lower_char c) (lower s')
  end.

(** [needle in haystack] *)
Fixpoint contains (needle haystack : string) : bool :=
  String.prefix needle haystack
  || match haystack with
     | EmptyString => false
     | String _ rest => contains needle rest
     end.

(** [s or ''] for an [Optional[str]] *)
Definition or_empty (o : option string) : string :=
  match o with Some s => s | None => EmptyString end.

(** [s.split(",")[0]] *)
Fixpoint before_comma (s : string) : string :=
  match s with
  | EmptyString => EmptyString
  | String c rest =>
      if Ascii.eqb c ","%char then EmptyString else String c (before_comma rest)
  end.

(** ** [src/resume_selector.py] *)

(** The arithmetic [select_resume] does on scores.  A weight is a Python
    [float]; the matched-keyword count is an [int].  Nothing below depends
    on how products round, so the operations are an interface:
    [int_times n w] is [n * w], [gt a b] is [a > b] and [gt_zero a] is
    [a > 0]. *)
Class Score (F : Type) : Type := {
  int_times : nat -> F -> F;
  gt : F -> F -> bool;
  gt_zero : F -> bool
}.

Section ResumeSelector.
Context {F : Type} `{Score F}.

(** A value of [self.resume_profiles]. *)
Record Profile : Type := mkProfile {
  file : string;
  keywords : list string;
  weight : F
}.

(** A value of the local [scores] dictionary. *)
Record ScoreInfo : Type := mkScoreInfo {
  score : F;
  matched_keywords : list string;
  score_file : string
}.

(** [self.resume_profiles]: a [dict], which iterates in the order its
    keys were first inserted. *)
Definition Profiles : Type := list (string * Profile).

(** [d[k] = v] on an insertion-ordered dictionary. *)
Fixpoint dict_set {V : Type} (d : list (string * V)) (k : string) (v : V)
  : list (string * V) :=
  match d with
  | [] => [(k, v)]
  | (k', v') :: rest =>
      if String.eqb k' k then (k, v) :: rest
      else (k', v') :: dict_set rest k v
  end.

(** The selector object: [resumes_dir_join file] is
    [str(self.resumes_dir / file)], [path_exists p] is [Path(p).exists()]
    as the file system answers it. *)
Variable resumes_dir_join : string -> string.
Variable path_exists : string -> bool.

(** The loop of [_load_resume_profiles] over the built-in table. *)
Fixpoint load_profiles (builtin : Profiles) (resume_profiles : Profiles)
  : Profiles :=
  match builtin with
  | [] => resume_profiles
  | (profile_name, profile_data) :: rest =>
      if path_exists (resumes_dir_join (file profile_data))
      then load_profiles rest (dict_set resume_profiles profile_name profile_data)
      else load_profiles rest resume_profiles
  end.

(** [add_custom_profile] *)
Definition add_custom_profile (resume_profiles : Profiles)
           (name filename : string) (kws : list string) (w : F) : Profiles :=
  if path_exists (resumes_dir_join filename)
  then dict_set resume_profiles name (mkProfile filename (map lower kws) w)
  else resume_profiles.

(** The inner [for keyword in profile_data["keywords"]] loop: the count
    and the matched keywords. *)
Fixpoint match_keywords (search_text : string) (kws : list string)
  : nat * list string :=
  match kws with
  | [] => (0, [])
  | keyword :: rest =>
      let (n, matched) := match_keywords search_text rest in
      if contains (lower keyword) search_text
      then (S n, keyword :: matched) else (n, matched)
  end.

Definition score_profile (search_text : string) (profile_data : Profile)
  : ScoreInfo :=
  let (n, matched) := match_keywords search_text (keywords profile_data) in
  mkScoreInfo (int_times n (weight profile_data)) matched (file profile_data).

(** The [scores] dictionary after the outer loop. *)
Definition score_all (search_text : string) (resume_profiles : Profiles)
  : list (string * ScoreInfo) :=
  map (fun '(profile_name, profile_data) =>
         (profile_name, score_profile search_text profile_data))
      resume_profiles.

(** [max(items, key=...)] after its first item: a later item replaces
    the best one only when its key is strictly greater. *)
Fixpoint max_from (best : string * ScoreInfo)
         (items : list (string * ScoreInfo)) : string * ScoreInfo :=
  match items with
  | [] => best
  | x :: rest =>
      if gt (score (snd x)) (score (snd best))
      then max_from x rest else max_from best rest
  end.

(** The f-string joining title, description and company, lower-cased. *)
Definition search_text_of (job_title : string)
           (job_description company : option string) : string :=
  lower (job_title ++ " " ++ or_empty job_description ++ " "
                   ++ or_empty company).

(** [select_resume] *)
Definition select_resume (resume_profiles : Profiles) (job_title : string)
           (job_description company : option string) : option string :=
  match resume_profiles with
  | [] => None
  | [(_, profile)] => Some (resumes_dir_join (file profile))
  | (_, default_profile) :: _ =>
      let search_text := search_text_of job_title job_description company in
      let scores := score_all search_text resume_profiles in
      if negb (existsb (fun s => gt_zero (score (snd s))) scores)
      then Some (resumes_dir_join (file default_profile))
      else
        match scores with
        | [] => None
        | first :: rest =>
            let (profile_name, profile_info) := max_from first rest in
            Some (resumes_dir_join (score_file profile_info))
        end
  end.
End ResumeSelector.

Arguments Profile F : clear implicits.
Arguments Profiles F : clear implicits.
Arguments ScoreInfo F : clear implicits.

(** The two profiles [_load_resume_profiles] defines, both of weight 1.0. *)
Definition builtin_profiles {F : Type} (one : F) : Profiles F :=
  [ ("backend",
     mkProfile "Backend.pdf"
       [ "backend"; "python"; "django"; "flask"; "fastapi"; "api";
         "rest"; "graphql"; "database"; "sql"; "postgresql"; "mysql";
         "mongodb"; "redis"; "microservices"; "docker"; "kubernetes";
         "aws"; "cloud"; "serverless"; "node.js"; "express"; "spring";
         "java"; ".net"; "c#"; "ruby"; "rails"; "php"; "laravel" ]
       one);
    ("embedded",
     mkProfile "embedded.pdf"
       [ "embedded"; "firmware"; "c"; "c++"; "microcontroller"; "mcu";
         "arm"; "rtos"; "real-time"; "iot"; "hardware"; "fpga"; "vhdl";
         "verilog"; "assembly"; "linux kernel"; "device driver"; "uart";
         "spi"; "i2c"; "can"; "automotive"; "robotics"; "raspberry pi";
         "arduino"; "stm32"; "esp32"; "sensor"; "actuator" ]
       one) ].

(** [_load_resume_profiles] *)
Definition _load_resume_profiles {F : Type} (one : F)
           (resumes_dir_join : string -> string)
           (path_exists : string -> bool) : Profiles F :=
  load_profiles resumes_dir_join path_exists (builtin_profiles one) [].

(** ** [src/linkedin/job_applier.py] *)

(** *** Calls that change a state and may raise *)

Definition M (St A : Type) : Type := St -> Outcome A * St.

Definition ret {St A : Type} (a : A) : M St A := fun w => (Returned a, w).

Definition raise {St A : Type} (e : Exception) : M St A :=
  fun w => (Raised e, w).

Definition bind {St A B : Type} (m : M St A) (k : A -> M St B) : M St B :=
  fun w =>
    match m w with
    | (Returned a, w') => k a w'
    | (Raised e, w') => (Raised e, w')
    end.

(** [try: m  except Exception: h] *)
Definition try_except {St A : Type} (m : M St A) (h : Exception -> M St A)
  : M St A :=
  fun w =>
    match m w with
    | (Returned a, w') => (Returned a, w')
    | (Raised e, w') => h e w'
    end.


Declare Scope py_scope.
Delimit Scope py_scope with py.
Notation "x <- m ;; k" := (bind m (fun x => k))
  (at level 61, m at next level, right associativity) : py_scope.
Notation "m ;;; k" := (bind m (fun _ => k))
  (at level 61, right associativity) : py_scope.
Local Open Scope py_scope.

(** *** The collaborators *)

(** The browsing session, the file system, the clock and the text provider
    as the applier uses them.  [World] is their joint state; [Elem] is an
    element handle.  Every primitive may change the world and may raise. *)
Record Collaborator (World Elem : Type) : Type := mkCollaborator {
  start_browser : M World unit;
  get_context : M World unit;
  ensure_logged_in : M World unit;
  close : M World unit;
  goto : option string -> M World unit;
  wait_for_timeout : nat -> M World unit;
  sleep : nat -> M World unit;
  utcnow : M World datetime;
  query_selector : string -> M World (option Elem);
  query_selector_all : string -> M World (list Elem);
  elem_query_selector : Elem -> string -> M World (option Elem);
  inner_text : Elem -> M World string;
  click : Elem -> M World unit;
  set_input_files : Elem -> string -> M World unit;
  fill : Elem -> string -> M World unit;
  input_value : Elem -> M World string;
  get_attribute : Elem -> string -> M World (option string);
  is_checked : Elem -> M World bool;
  file_exists : string -> M World bool;
  generate : string -> string -> string -> M World (option string)
}.

(** The fields of [Settings] the applier reads. *)
Record Settings : Type := mkSettings {
  location_setting : string;
  resume_path : string;
  max_applications_per_run : nat;
  use_smart_resume_selection : bool
}.

(** [self.stats] *)
Record Stats : Type := mkStats {
  attempted : nat;
  successful : nat;
  skipped : nat;
  failed : nat
}.

Definition initial_stats : Stats := mkStats 0 0 0 0.

(** The selectors, as written in the source. *)
Definition sel_already_applied : string :=
  "[class*='applied'], .jobs-s-apply--fadein".
Definition sel_easy_apply_btn : string :=
  ".jobs-apply-button, button[data-control-name='jobdetails_topcard_inapply'], button.jobs-s-apply button, .jobs-apply-button--top-card".
Definition sel_success_indicator : string :=
  "[class*='post-apply'], .artdeco-modal__content h2".
Definition sel_submit_btn : string :=
  "button[aria-label='Submit application'], button[aria-label='Review'], .jobs-easy-apply-content footer button.artdeco-button--primary".
Definition sel_next_btn : string :=
  "button[aria-label='Continue to next step'], button[data-easy-apply-next-button]".
Definition sel_dismiss_btn : string :=
  "button[aria-label='Dismiss'], .artdeco-modal__dismiss".
Definition sel_modal_content : string := ".artdeco-modal__content".
Definition sel_error_elem : string :=
  ".artdeco-inline-feedback--error, [class*='error']".
Definition sel_resume_input : string :=
  "input[type='file'][name*='resume'], input[accept*='.pdf']".
Definition sel_cover_letter_input : string :=
  "textarea[name*='cover'], textarea[aria-label*='cover letter'], textarea[id*='cover']".
Definition sel_phone_input : string :=
  "input[name*='phone'], input[aria-label*='phone'], input[id*='phone']".
Definition sel_required_fields : string :=
  ".jobs-easy-apply-form-section__grouping input[required], .jobs-easy-apply-form-section__grouping select[required]".
Definition sel_radio_groups : string :=
  ".jobs-easy-apply-form-section__grouping fieldset".
Definition sel_yes_option : string :=
  "input[value='Yes'], input[value='yes'], label:has-text('Yes') input".
Definition sel_label_for (field_id : string) : string :=
  "label[for='" ++ field_id ++ "']".

Definition failure_message : string := "Application could not be completed".

(** [for x in xs: body(x)] *)
Fixpoint for_each {St A : Type} (xs : list A) (body : A -> M St unit)
  : M St unit :=
  match xs with
  | [] => ret tt
  | x :: rest => body x ;;; for_each rest body
  end.

Section JobApplier.
Context {World Elem : Type} (page : Collaborator World Elem).
Context {F : Type} `{Score F}.

(** The applier object: its settings, [self.resume_selector] ([None] when
    smart selection is off) with the selector's [resumes_dir] join,
    whether a cover letter generator was passed, and [str(Path(p))]. *)
Variable settings : Settings.
Variable resume_selector : option (Profiles F).
Variable resumes_dir_join : string -> string.
Variable cover_letter_generator : bool.
Variable path_str : string -> string.

(** The resume the selector proposes for [job], when there is a selector. *)
Definition selected_resume_for (profiles : Profiles F) (job : Job.t)
  : option string :=
  select_resume resumes_dir_join profiles (Job.title job)
                (Job.description job) (Some (Job.company job)).

(** The body of the [for field in required_fields] loop, inside its
    [try]. *)
Definition fill_required_field (field : Elem) : M World unit :=
  field_type <- get_attribute page field "type" ;;
  current_value <-
    (match field_type with
     | Some "select" => ret None
     | _ => v <- input_value page field ;; ret (Some v)
     end) ;;
  if truthy current_value then ret tt
  else
    field_id <- get_attribute page field "id" ;;
    match field_id with
    | Some (String c fid) =>
        label <- query_selector page (sel_label_for (String c fid)) ;;
        match label with
        | Some l =>
            label_text <- inner_text page l ;;
            let label_lower := lower label_text in
            if contains "year" label_lower && contains "experience" label_lower
            then fill page field "3"
            else if contains "city" label_lower
                 then fill page field (before_comma (location_setting settings))
                 else ret tt
        | None => ret tt
        end
    | _ => ret tt
    end.

(** The body of the [for group in radio_groups] loop, inside its [try]. *)
Definition answer_radio_group (group : Elem) : M World unit :=
  legend <- elem_query_selector page group "legend" ;;
  match legend with
  | None => ret tt
  | Some _ =>
      yes_option <- elem_query_selector page group sel_yes_option ;;
      match yes_option with
      | Some y =>
          is_checked_ <- is_checked page y ;;
          if is_checked_ then ret tt else click page y
      | None => ret tt
      end
  end.

(** [_fill_application_step] *)
Definition _fill_application_step (job : Job.t) : M World unit :=
  resume_input <- query_selector page sel_resume_input ;;
  (match resume_input with
   | Some inp =>
       let resume_path_ :=
         match resume_selector with
         | Some profiles =>
             let selected_resume := selected_resume_for profiles job in
             if truthy selected_resume
             then path_str (or_empty selected_resume)
             else path_str (resume_path settings)
         | None => path_str (resume_path settings)
         end in
       present <- file_exists page resume_path_ ;;
       if present then set_input_files page inp resume_path_ else ret tt
   | None => ret tt
   end) ;;;
  cover_letter_input <- query_selector page sel_cover_letter_input ;;
  (match cover_letter_input with
   | Some inp =>
       if cover_letter_generator
       then
         cover_letter <- generate page (Job.title job) (Job.company job)
                                  (or_empty (Job.description job)) ;;
         if truthy cover_letter
         then fill page inp (or_empty cover_letter) else ret tt
       else ret tt
   | None => ret tt
   end) ;;;
  phone_input <- query_selector page sel_phone_input ;;
  (match phone_input with
   | Some p => current_value <- input_value page p ;; ret tt
   | None => ret tt
   end) ;;;
  required_fields <- query_selector_all page sel_required_fields ;;
  for_each required_fields
           (fun field => try_except (fill_required_field field)
                                    (fun _ => ret tt)) ;;;
  radio_groups <- query_selector_all page sel_radio_groups ;;
  for_each radio_groups
           (fun group => try_except (answer_radio_group group)
                                    (fun _ => ret tt)).

(** One pass through the body of the [while] loop of
    [_complete_application_modal], after [step += 1]: [Some b] when the
    pass executes [return b], [None] when it reaches [continue] or the end
    of the body. *)
Definition modal_step (job : Job.t) : M World (option bool) :=
  wait_for_timeout page 1500 ;;;
  success_indicator <- query_selector page sel_success_indicator ;;
  sent <-
    (match success_indicator with
     | Some el =>
         text <- inner_text page el ;;
         ret (contains "application sent" (lower text)
              || contains "applied" (lower text))
     | None => ret false
     end) ;;
  if sent then ret (Some true)
  else
    submit_btn <- query_selector page sel_submit_btn ;;
    (* [Some r]: the pass ended in this block with [r]; [None]: it falls
       through to the next block *)
    after_submit <-
      (match submit_btn with
       | Some btn =>
           btn_text <- inner_text page btn ;;
           if contains "submit" (lower btn_text)
           then click page btn ;;; wait_for_timeout page 3000 ;;;
                ret (Some (Some true))
           else if contains "next" (lower btn_text)
                   || contains "continue" (lower btn_text)
                then _fill_application_step job ;;; click page btn ;;;
                     ret (Some None)
                else if contains "review" (lower btn_text)
                     then click page btn ;;; ret (Some None)
                     else ret None
       | None => ret None
       end) ;;
    match after_submit with
    | Some r => ret r
    | None =>
        next_btn <- query_selector page sel_next_btn ;;
        match next_btn with
        | Some btn =>
            _fill_application_step job ;;; click page btn ;;; ret None
        | None =>
            dismiss_btn <- query_selector page sel_dismiss_btn ;;
            completed <-
              (match dismiss_btn with
               | Some d =>
                   modal_content <- query_selector page sel_modal_content ;;
                   match modal_content with
                   | Some mc =>
                       content_text <- inner_text page mc ;;
                       if contains "application sent" (lower content_text)
                       then click page d ;;; ret true
                       else ret false
                   | None => ret false
                   end
               | None => ret false
               end) ;;
            if completed then ret (Some true)
            else
              error_elem <- query_selector page sel_error_elem ;;
              match error_elem with
              | Some e => error_text <- inner_text page e ;; ret None
              | None => ret None
              end
        end
    end.

(** [while step < max_steps: step += 1; ...] with the loop test as the
    source writes it.  The result carries the value of [step] when the
    function returns; [None] means the fuel ran out before the loop
    ended. *)
Fixpoint while_steps (fuel : nat) (job : Job.t) (step max_steps : nat)
  : M World (option (bool * nat)) :=
  match fuel with
  | 0 => ret None
  | S fuel' =>
      if Nat.ltb step max_steps
      then
        let step := step + 1 in
        r <- modal_step job ;;
        match r with
        | Some b => ret (Some (b, step))
        | None => while_steps fuel' job step max_steps
        end
      else ret (Some (false, step))
  end.

Definition max_steps : nat := 10.

(** [_complete_application_modal], run with fuel for [max_steps] passes
    and the final loop test (see [while_steps_enough_fuel]: that is always
    enough, so the last branch is never taken). *)
Definition _complete_application_modal (job : Job.t) : M World bool :=
  r <- while_steps (S max_steps) job 0 max_steps ;;
  match r with
  | Some (b, _) => ret b
  | None => raise (PageError "out of fuel")
  end.

(** [apply_to_job].  Its [except Exception] catches what the collaborators
    raise in this model; see [Exception] for what it lets through. *)
Definition apply_to_job (job : Job.t) : M World bool :=
  try_except
    (goto page (Job.job_url job) ;;;
     wait_for_timeout page 3000 ;;;
     already_applied <- query_selector page sel_already_applied ;;
     applied_before <-
       (match already_applied with
        | Some el =>
            text <- inner_text page el ;;
            ret (contains "applied" (lower text))
        | None => ret false
        end) ;;
     if applied_before then ret false
     else
       easy_apply_btn <- query_selector page sel_easy_apply_btn ;;
       match easy_apply_btn with
       | None => ret false
       | Some btn =>
           btn_text <- inner_text page btn ;;
           if negb (contains "easy apply" (lower btn_text)) then ret false
           else
             click page btn ;;;
             wait_for_timeout page 2000 ;;;
             _complete_application_modal job
       end)
    (fun _ => ret false).
End JobApplier.

(** *** The batch runner *)

(** What [apply_to_jobs] works on: the repository's database, [self.stats]
    and the collaborators' world. *)
Record Runner (World : Type) : Type := mkRunner {
  repository : Store;
  stats : Stats;
  world : World
}.
Arguments mkRunner {World} _ _ _.

(** A call on the collaborators, made by the runner. *)
Definition on_world {World A : Type} (m : M World A) : M (Runner World) A :=
  fun r =>
    let (o, w') := m (world r) in
    (o, mkRunner (repository r) (stats r) w').




Section BatchRunner.
Context {World Elem : Type} (page : Collaborator World Elem).
Context {F : Type} `{Score F}.
Variable settings : Settings.
Variable resume_selector : option (Profiles F).
Variable resumes_dir_join : string -> string.
Variable cover_letter_generator : bool.
Variable path_str : string -> string.

(** [datetime.utcnow()] as the repository evaluates it: a reading of the
    world's clock. *)
Variable clock : World -> datetime.

(** [self.stats[key] += 1] *)
Definition count_attempted : M (Runner World) unit :=
  fun r =>
    let st := stats r in
    (Returned tt,
     mkRunner (repository r)
              (mkStats (attempted st + 1) (successful st) (skipped st)
                       (failed st))
              (world r)).

Definition count_successful : M (Runner World) unit :=
  fun r =>
    let st := stats r in
    (Returned tt,
     mkRunner (repository r)
              (mkStats (attempted st) (successful st + 1) (skipped st)
                       (failed st))
              (world r)).

Definition count_failed : M (Runner World) unit :=
  fun r =>
    let st := stats r in
    (Returned tt,
     mkRunner (repository r)
              (mkStats (attempted st) (successful st) (skipped st)
                       (failed st + 1))
              (world r)).

(** [self.repository.create_application(...)] *)
Definition repo_create_application (job_id : nat) (status : ApplicationStatus)
           (resume_used : option string) : M (Runner World) Application.t :=
  fun r =>
    let (application, s') :=
      create_application (clock (world r)) (repository r) job_id status
                         None resume_used None in
    (Returned application, mkRunner s' (stats r) (world r)).

(** [self.repository.update_application_status(...)] *)
Definition repo_update_application_status (application_id : nat)
           (status : ApplicationStatus) (error_message : option string)
  : M (Runner World) (option Application.t) :=
  fun r =>
    let (res, s') :=
      update_application_status (clock (world r)) (repository r)
                                application_id status error_message in
    (res, mkRunner s' (stats r) (world r)).

(** The body of the [for i, job in enumerate(jobs[:max_apps])] loop. *)
Definition process_job (job : Job.t) : M (Runner World) unit :=
  count_attempted ;;;
  let resume_to_use :=
    match resume_selector with
    | Some profiles =>
        let selected_resume :=
          selected_resume_for resumes_dir_join profiles job in
        if truthy selected_resume then or_empty selected_resume
        else resume_path settings
    | None => resume_path settings
    end in
  application <- repo_create_application (Job.id job) PENDING
                                         (Some resume_to_use) ;;
  success <- on_world (apply_to_job page settings resume_selector
                                    resumes_dir_join cover_letter_generator
                                    path_str job) ;;
  (if success : bool
   then count_successful ;;;
        repo_update_application_status (Application.id application)
                                       EASY_APPLY None ;;; ret tt
   else count_failed ;;;
        repo_update_application_status (Application.id application)
                                       FAILED (Some failure_message) ;;;
        ret tt) ;;;
  on_world (sleep page 5).

End BatchRunner.

(** ** Values used to exercise the definitions *)

(** Rational scores, for running the selector. *)

#[export] Instance Score_Q : Score Q := {
  int_times := fun n w => Qmult (inject_Z (Z.of_nat n)) w;
  gt := fun a b => negb (Qle_bool a b);
  gt_zero := fun a => negb (Qle_bool a 0%Q)
}.

(** A dictionary from the discovery pipeline with the three mandatory keys
    and [is_easy_apply]. *)
Definition job_data_of (k ti co : string) (easy : bool) (t : datetime)
  : JobData.t :=
  JobData.mk (Some (Some k)) (Some ti) (Some co) None None None None None
             None None None (Some easy) (Some t) None.

(** The number of stored rows of [jobs] with a given [linkedin_job_id]. *)
Definition stored (s : Store) (k : string) : nat :=
  List.length
    (filter (fun j => String.eqb (Job.linkedin_job_id j) k) (jobs s)).

(** A dictionary the storage layer accepts: the NOT NULL columns are
    bound. *)
Definition well_formed (d : JobData.t) : bool :=
  match JobData.linkedin_job_id d, JobData.title d, JobData.company d with
  | Some (Some _), Some _, Some _ => true
  | _, _, _ => false
  end.


(** The status column holds one of the two success values. *)
Definition success_status (a : Application.t) : bool :=
  status_column_in a [APPLIED; EASY_APPLY].

(** The ids of the application rows that a call gave a success status,
    followed along a sequence of calls: a row enters at its creation with a
    success status or at an update of it to one. *)
Definition exec_marking (sm : Store * list nat) (c : Call) : Store * list nat :=
  let (s, marked) := sm in
  (exec s c,
   match c with
   | CallCreateApplication _ _ st _ _ _ =>
       if status_in st [APPLIED; EASY_APPLY]
       then next_id (map Application.id (applications s)) :: marked
       else marked
   | CallUpdateApplicationStatus _ i st _ =>
       if status_in st [APPLIED; EASY_APPLY]
          && existsb (fun a => Nat.eqb (Application.id a) i) (applications s)
       then i :: marked else marked
   | _ => marked
   end).

Definition given_success (cs : list Call) : list nat :=
  snd (fold_left exec_marking cs (empty_store, [])).

(** The status invariant as the specification words it, on one store. *)
Definition submitted_iff_success (s : Store) : Prop :=
  forall a, In a (applications s) ->
    (Application.applied_at a <> None <-> success_status a = true).


(** "An update of an unknown id fails with an error." *)
Definition raises (A : Type) (r : Outcome A) : Prop :=
  exists e, r = Raised e.

(** A listing whose applications, if any, are all pending or failed. *)
Definition only_pending_or_failed (s : Store) (j : Job.t) : Prop :=
  forall a, In a (applications s) -> Application.job_id a = Job.id j ->
    Application.status a = value PENDING \/ Application.status a = value FAILED.

(** "Every quick-apply listing with only pending or failed applications is
    in the result", for one store and limit. *)
Definition retryable_included (s : Store) (limit : nat) : Prop :=
  forall j, In j (jobs s) -> Job.is_easy_apply j = true ->
    only_pending_or_failed s j ->
    In j (get_unapplied_easy_apply_jobs s limit).

(** [stats[key]] summed over the per-status keys the dictionary has. *)
Definition per_status_sum (d : list (string * nat)) : nat :=
  list_sum
    (map (fun st => or_default (dict_get d (value st)) 0)
         [PENDING; APPLIED; EASY_APPLY; EXTERNAL; SKIPPED; FAILED]).

(** A store with a successful application that was then marked failed. *)
Definition store_failed_after_success : Store :=
  run empty_store
      [ CallCreateApplication 1 7 PENDING None None None;
        CallUpdateApplicationStatus 2 1 EASY_APPLY None;
        CallUpdateApplicationStatus 3 1 FAILED (Some failure_message) ].

(** A store with one application submitted at time 1. *)
Definition store_one_submitted : Store :=
  run empty_store [ CallCreateApplication 1 7 EASY_APPLY None None None ].

(** Two quick-apply listings, the older one with a failed attempt. *)
Definition store_two_retryable : Store :=
  run empty_store
      [ CallAddJob 1 (job_data_of "1" "Job 1" "Company 1" true 1);
        CallAddJob 2 (job_data_of "2" "Job 2" "Company 2" true 2);
        CallCreateApplication 3 1 FAILED None None None ].

(** ** Invariants and measures used in the proofs *)

(** No two rows of [jobs] share a [linkedin_job_id]. *)
Definition unique_ids (s : Store) : Prop :=
  NoDup (map Job.linkedin_job_id (jobs s)).

(** What the marking keeps true of the application table. *)
Definition marking_inv (sm : Store * list nat) : Prop :=
  let (s, marked) := sm in
  NoDup (map Application.id (applications s))
  /\ (forall i, In i marked -> In i (map Application.id (applications s)))
  /\ (forall a, In a (applications s) ->
        (success_status a = true -> Application.applied_at a <> None)
        /\ (Application.applied_at a <> None <-> In (Application.id a) marked)).

(** How many of the five counted statuses a status string equals. *)
Definition counted (v : string) : nat :=
  list_sum (map (fun st => if String.eqb v (value st) then 1 else 0)
                [PENDING; APPLIED; EASY_APPLY; SKIPPED; FAILED]).

(** The five counts of [get_application_stats], added up. *)
Definition counted_sum (s : Store) : nat :=
  count_status s PENDING + count_status s APPLIED + count_status s EASY_APPLY
  + count_status s SKIPPED + count_status s FAILED.


(** "Discovered no earlier than": the order of the result list. *)
Definition newer_or_same (a b : Job.t) : Prop :=
  Job.scraped_at b <= Job.scraped_at a.

(** The score [select_resume] computes for one profile. *)
Definition score_of {F : Type} `{Score F} (job_title : string)
           (job_description company : option string) (p : Profile F) : F :=
  score (score_profile (search_text_of job_title job_description company) p).

(** Two profiles in load order, as rational-weighted profiles. *)
Definition two_profiles : Profiles Q := builtin_profiles 1%Q.

(** [str(Path("resumes") / file)] *)
Definition resumes_join (file : string) : string := "resumes/" ++ file.

(** A form collaborator that shows nothing: every query finds no element,
    every other primitive returns at once.  Its world counts the waits. *)
Definition quiet_page : Collaborator nat unit :=
  {| start_browser := ret tt;
     get_context := ret tt;
     ensure_logged_in := ret tt;
     close := ret tt;
     goto := fun _ => ret tt;
     wait_for_timeout := fun _ w => (Returned tt, S w);
     sleep := fun _ => ret tt;
     utcnow := ret 0;
     query_selector := fun _ => ret None;
     query_selector_all := fun _ => ret [];
     elem_query_selector := fun _ _ => ret None;
     inner_text := fun _ => ret EmptyString;
     click := fun _ => ret tt;
     set_input_files := fun _ _ => ret tt;
     fill := fun _ _ => ret tt;
     input_value := fun _ => ret EmptyString;
     get_attribute := fun _ _ => ret None;
     is_checked := fun _ => ret false;
     file_exists := fun _ => ret false;
     generate := fun _ _ _ => ret None |}.

Definition default_settings : Settings :=
  mkSettings "Remote" "./resumes/my_resume.pdf" 10 true.

(** The listing of the specification's scenario, as stored. *)
Definition job_42 : Job.t :=
  Job.mk 1 "42" "Backend Engineer" "Acme" None
         (Some "python django rest api")
         (Some "https://www.linkedin.com/jobs/view/42") None None None None
         None true 1 None.

(** *** When [apply_to_job] finds a listing not eligible *)

Section NotEligible.
Context {World Elem : Type} (page : Collaborator World Elem).

(** The job page was opened: [goto] and the wait returned, leaving world
    [w2]. *)
Definition page_loaded (job : Job.t) (w w2 : World) : Prop :=
  exists w1,
    goto page (Job.job_url job) w = (Returned tt, w1)
    /\ wait_for_timeout page 3000 w1 = (Returned tt, w2).

(** The page does not signal a prior application: no marker element, or
    one whose text lacks the word. *)
Definition no_prior_application (w2 w3 : World) : Prop :=
  query_selector page sel_already_applied w2 = (Returned None, w3)
  \/ exists el w' text,
       query_selector page sel_already_applied w2 = (Returned (Some el), w')
       /\ inner_text page el w' = (Returned text, w3)
       /\ contains "applied" (lower text) = false.

(** The three ways [apply_to_job] decides, before the form, that the
    listing is not eligible. *)
Inductive not_eligible (job : Job.t) (w : World) : Prop :=
| prior_application (w2 w3 w4 : World) (el : Elem) (text : string) :
    page_loaded job w w2 ->
    query_selector page sel_already_applied w2 = (Returned (Some el), w3) ->
    inner_text page el w3 = (Returned text, w4) ->
    contains "applied" (lower text) = true ->
    not_eligible job w
| no_apply_button (w2 w3 w4 : World) :
    page_loaded job w w2 ->
    no_prior_application w2 w3 ->
    query_selector page sel_easy_apply_btn w3 = (Returned None, w4) ->
    not_eligible job w
| not_easy_apply_button (w2 w3 w4 w5 : World) (btn : Elem)
                        (btn_text : string) :
    page_loaded job w w2 ->
    no_prior_application w2 w3 ->
    query_selector page sel_easy_apply_btn w3 = (Returned (Some btn), w4) ->
    inner_text page btn w4 = (Returned btn_text, w5) ->
    contains "easy apply" (lower btn_text) = false ->
    not_eligible job w.
End NotEligible.

(** "The listing's application row is marked skipped." *)
Definition marked_skipped {World : Type} (job : Job.t) (r : Runner World)
  : Prop :=
  exists a, In a (applications (repository r))
            /\ Application.job_id a = Job.id job
            /\ Application.status a = value SKIPPED.

(** The runner before a batch whose store holds the scenario's listing. *)
Definition runner_with_job_42 : Runner nat :=
  mkRunner (mkStore [job_42] []) initial_stats 0.

(** An application id in the range of SQLite's INTEGER keys. *)
Definition fits_sqlite_integer (application_id : nat) : Prop :=
  (Z.of_nat application_id < 2 ^ 63)%Z.



(** ** [src/database/repository.py]: the remaining queries *)

(** [get_job_by_linkedin_id] *)
Definition get_job_by_linkedin_id (s : Store) (linkedin_job_id : string)
  : option Job.t :=
  find (fun j => String.eqb (Job.linkedin_job_id j) linkedin_job_id) (jobs s).

(** [get_all_jobs]: [ORDER BY scraped_at DESC OFFSET offset LIMIT limit],
    with non-negative [limit] and [offset]. *)
Definition get_all_jobs (s : Store) (limit offset : nat) : list Job.t :=
  firstn limit (skipn offset (order_by_scraped_at_desc (jobs s))).

(** [get_application_for_job]: [.first()] of the rows of the job, which
    the storage engine scans in rowid order. *)
Definition get_application_for_job (s : Store) (job_id : nat)
  : option Application.t :=
  find (fun a => Nat.eqb (Application.job_id a) job_id) (applications s).

(** [get_applications_by_status] *)
Definition get_applications_by_status (s : Store) (status : ApplicationStatus)
           (limit : nat) : list Application.t :=
  firstn limit
         (filter (fun a => String.eqb (Application.status a) (value status))
                 (applications s)).

(** SQL [lower()] as SQLite computes it: only the letters A-Z change. *)
Definition sql_lower_char (c : ascii) : ascii :=
  let n := nat_of_ascii c in
  if Nat.leb 65 n && Nat.leb n 90 then ascii_of_nat (n + 32) else c.

Fixpoint sql_lower (s : string) : string :=
  match s with
  | EmptyString => EmptyString
  | String c s' => String (sql_lower_char c) (sql_lower s')
  end.

(** [text LIKE pattern] on lower-cased operands: [%] matches any run of
    characters, [_] any one character, every other character itself. *)
Fixpoint like (pattern : string) : string -> bool :=
  match pattern with
  | EmptyString =>
      fun text => match text with EmptyString => true | _ => false end
  | String p pattern' =>
      if Ascii.eqb p "%"%char
      then
        fix any_run (text : string) : bool :=
          like pattern' text
          || match text with
             | EmptyString => false
             | String _ text' => any_run text'
             end
      else
        fun text =>
          match text with
          | EmptyString => false
          | String c text' =>
              (Ascii.eqb p "_"%char || Ascii.eqb p c) && like pattern' text'
          end
  end.

(** [column.ilike(pattern)], which SQLAlchemy renders for SQLite as
    [lower(column) LIKE lower(pattern)]. *)
Definition ilike (column pattern : string) : bool :=
  like (sql_lower pattern) (sql_lower column).

(** [search_jobs]: no [ORDER BY]; the rows come in rowid order. *)
Definition search_jobs (s : Store) (keyword : string) (limit : nat)
  : list Job.t :=
  let pattern := "%" ++ keyword ++ "%" in
  firstn limit
         (filter (fun j => ilike (Job.title j) pattern
                           || ilike (Job.company j) pattern)
                 (jobs s)).

(** ** [src/resume_selector.py]: the remaining methods *)

(** [get_resume_by_name] *)
Definition get_resume_by_name {F : Type} (resumes_dir_join : string -> string)
           (resume_profiles : Profiles F) (name : string) : option string :=
  match dict_get resume_profiles name with
  | Some profile => Some (resumes_dir_join (file profile))
  | None => None
  end.

(** [list_available_resumes] *)
Definition list_available_resumes {F : Type} (resume_profiles : Profiles F)
  : list string :=
  map fst resume_profiles.

(** ** Auxiliary definitions for the further properties *)

(** [add_job] called on each dictionary in turn, collecting the jobs it
    returns; stops at the first call that raises. *)
Fixpoint add_each (now : datetime) (s : Store) (jobs_data : list JobData.t)
  : Outcome (list Job.t * Store) :=
  match jobs_data with
  | [] => Returned ([], s)
  | job_data :: rest =>
      match add_job now s job_data with
      | (Returned added, s1) =>
          match add_each now s1 rest with
          | Returned (more, s2) =>
              Returned (match added with
                        | Some job => job :: more
                        | None => more
                        end, s2)
          | Raised e => Raised e
          end
      | (Raised e, _) => Raised e
      end
  end.

(** The status column holds the value of some [ApplicationStatus]. *)
Definition valid_status (a : Application.t) : Prop :=
  exists st, Application.status a = value st.

(** Primary keys in rowid order are positive and strictly increasing. *)
Definition keys_increasing (ids : list nat) : Prop :=
  StronglySorted lt ids /\ Forall (lt 0) ids.



(** A form step with two required fields and two radio groups, on which
    every field-level primitive raises. *)
Definition failing_fields_page : Collaborator nat unit :=
  {| start_browser := ret tt;
     get_context := ret tt;
     ensure_logged_in := ret tt;
     close := ret tt;
     goto := fun _ => ret tt;
     wait_for_timeout := fun _ w => (Returned tt, S w);
     sleep := fun _ => ret tt;
     utcnow := ret 0;
     query_selector := fun _ => ret None;
     query_selector_all := fun _ => ret [tt; tt];
     elem_query_selector := fun _ _ => raise (PageError "detached");
     inner_text := fun _ => raise (PageError "detached");
     click := fun _ => raise (PageError "detached");
     set_input_files := fun _ _ => raise (PageError "detached");
     fill := fun _ _ => raise (PageError "detached");
     input_value := fun _ => raise (PageError "detached");
     get_attribute := fun _ _ => raise (PageError "detached");
     is_checked := fun _ => raise (PageError "detached");
     file_exists := fun _ => ret false;
     generate := fun _ _ _ => ret None |}.

(** A keyword without the two wildcard characters of [LIKE]. *)
Fixpoint wildcard_free (keyword : string) : bool :=
  match keyword with
  | EmptyString => true
  | String c rest =>
      negb (Ascii.eqb c "%"%char) && negb (Ascii.eqb c "_"%char)
      && wildcard_free rest
  end.
Unset Implicit Arguments.

(** * Properties of the store *)

Section StoreFacts.

Lemma existsb_lid_In (k : string) (l : list Job.t) :
  existsb (fun j => String.eqb (Job.linkedin_job_id j) k) l = true
  <-> In k (map Job.linkedin_job_id l).
Proof.
  induction l as [|a l IH]; simpl.
  - split; [discriminate | tauto].
  - rewrite orb_true_iff, IH, String.eqb_eq. tauto.
Qed.

Lemma filter_lid_absent (k : string) (l : list Job.t) :
  ~ In k (map Job.linkedin_job_id l) ->
  filter (fun j => String.eqb (Job.linkedin_job_id j) k) l = [].
Proof.
  induction l as [|a l IH]; simpl; intros Hn; [reflexivity|].
  destruct (String.eqb_spec (Job.linkedin_job_id a) k) as [E|E].
  - exfalso. apply Hn. now left.
  - apply IH. intros Hin. apply Hn. now right.
Qed.

Lemma unique_stored_once (k : string) (l : list Job.t) :
  NoDup (map Job.linkedin_job_id l) ->
  In k (map Job.linkedin_job_id l) ->
  List.length (filter (fun j => String.eqb (Job.linkedin_job_id j) k) l) = 1.
Proof.
  induction l as [|a l IH]; simpl; intros Hnd Hin; [contradiction|].
  inversion Hnd as [|x xs Hnotin Hnd']; subst.
  destruct (String.eqb_spec (Job.linkedin_job_id a) k) as [E|E].
  - subst k. rewrite filter_lid_absent by assumption. reflexivity.
  - destruct Hin as [Hin|Hin]; [contradiction|]. now apply IH.
Qed.

Lemma NoDup_snoc {A : Type} (l : list A) (x : A) :
  NoDup l -> ~ In x l -> NoDup (l ++ [x]).
Proof.
  intros Hnd Hn. apply NoDup_rev in Hnd.
  rewrite <- (rev_involutive (l ++ [x])). apply NoDup_rev.
  rewrite rev_app_distr. simpl. constructor; [|assumption].
  rewrite <- in_rev. assumption.
Qed.

(** What a successful [insert_job] does to the table. *)
Lemma insert_job_returned now s d job s' :
  insert_job now s d = Returned (job, s') ->
  jobs s' = (jobs s ++ [job])%list
  /\ applications s' = applications s
  /\ JobData.linkedin_job_id d = Some (Some (Job.linkedin_job_id job))
  /\ ~ In (Job.linkedin_job_id job) (map Job.linkedin_job_id (jobs s)).
Proof.
  unfold insert_job.
  destruct (JobData.linkedin_job_id d) as [[k|]|]; try discriminate.
  destruct (JobData.title d) as [ti|]; try discriminate.
  destruct (JobData.company d) as [co|]; try discriminate.
  destruct (existsb _ (jobs s)) eqn:E; try discriminate.
  intros Heq. inversion Heq; subst; clear Heq. simpl.
  repeat split; try reflexivity.
  intros Hin. apply existsb_lid_In in Hin. congruence.
Qed.

Lemma insert_job_unique now s d job s' :
  unique_ids s -> insert_job now s d = Returned (job, s') -> unique_ids s'.
Proof.
  intros Hu Hi. apply insert_job_returned in Hi as (Hj & _ & _ & Hn).
  unfold unique_ids. rewrite Hj, map_app. simpl. now apply NoDup_snoc.
Qed.

Lemma insert_job_keeps now s d job s' k :
  insert_job now s d = Returned (job, s') ->
  job_exists s (Some k) = true -> job_exists s' (Some k) = true.
Proof.
  intros Hi. apply insert_job_returned in Hi as (Hj & _).
  simpl. rewrite Hj, existsb_app. intros ->. reflexivity.
Qed.

(** The loop of [add_jobs_batch]: the table stays duplicate-free, stored
    ids stay stored, and every job it adds beyond [added] carries an id
    that was not stored when the loop started. *)
Lemma add_jobs_loop_spec now ds :
  forall s added added' s',
    add_jobs_loop now s added ds = Returned (added', s') ->
    (unique_ids s -> unique_ids s')
    /\ (forall k, job_exists s (Some k) = true -> job_exists s' (Some k) = true)
    /\ applications s' = applications s
    /\ (forall j, In j added' ->
          In j added \/ job_exists s (Some (Job.linkedin_job_id j)) = false).
Proof.
  induction ds as [|d ds IH]; simpl; intros s added added' s' Hl.
  - inversion Hl; subst. repeat split; auto.
  - destruct (job_exists s (get_linkedin_job_id d)) eqn:Ex.
    + apply IH in Hl. exact Hl.
    + destruct (insert_job now s d) as [[job s1]|e] eqn:Hi; [|discriminate].
      apply IH in Hl as (Hu & Hk & Ha & Hadd).
      pose proof (insert_job_returned _ _ _ _ _ Hi) as (Hj & Hap & Hid & Hn).
      repeat split.
      * intros U. apply Hu. eapply insert_job_unique; eauto.
      * intros k Hk0. apply Hk. eapply insert_job_keeps; eauto.
      * congruence.
      * intros j Hin. destruct (Hadd j Hin) as [Hin'|Hne].
        -- apply in_app_or in Hin' as [Hin'|[<-|[]]]; [now left|].
           right. simpl.
           destruct (existsb _ (jobs s)) eqn:E; [|reflexivity].
           apply existsb_lid_In in E. contradiction.
        -- right. simpl in *. rewrite Hj, existsb_app in Hne.
           apply orb_false_iff in Hne. tauto.
Qed.

Lemma exec_unique s c : unique_ids s -> unique_ids (exec s c).
Proof.
  intros U. destruct c as [now d|now ds|now j st cl r n|now i st e]; simpl.
  - unfold add_job. destruct (job_exists _ _); [exact U|].
    destruct (insert_job now s d) as [[job s1]|ex] eqn:Hi; simpl; [|exact U].
    eapply insert_job_unique; eauto.
  - unfold add_jobs_batch.
    destruct (add_jobs_loop now s [] ds) as [[added s1]|ex] eqn:Hl; simpl;
      [|exact U].
    apply add_jobs_loop_spec in Hl as (Hu & _). auto.
  - exact U.
  - unfold update_application_status.
    destruct (find _ _); simpl; exact U.
Qed.

Lemma run_unique cs : forall s, unique_ids s -> unique_ids (run s cs).
Proof.
  induction cs as [|c cs IH]; simpl; intros s U; [exact U|].
  apply IH. now apply exec_unique.
Qed.

(** A batch of well-formed dictionaries never raises. *)
Lemma add_jobs_loop_well_formed now ds :
  forall s added, forallb well_formed ds = true ->
    exists added' s', add_jobs_loop now s added ds = Returned (added', s').
Proof.
  induction ds as [|d ds IH]; simpl; intros s added Hwf.
  - eauto.
  - apply andb_true_iff in Hwf as [Hd Hds].
    destruct (job_exists s (get_linkedin_job_id d)) eqn:Ex; [now apply IH|].
    unfold insert_job. unfold well_formed in Hd.
    unfold get_linkedin_job_id in Ex.
    destruct (JobData.linkedin_job_id d) as [[k|]|]; try discriminate.
    destruct (JobData.title d); try discriminate.
    destruct (JobData.company d); try discriminate.
    simpl in Ex. rewrite Ex. now apply IH.
Qed.

End StoreFacts.

(** C1.  After any sequence of repository calls, for an id [k] that is
    stored: exactly one row of [jobs] carries [k]; [add_job] of a
    dictionary with that id returns [None] without raising and leaves the
    store as it is; [add_jobs_batch] of any batch returns a list of added
    jobs none of which carries [k], with still exactly one row for [k] (or,
    when the storage layer refuses some other item, raises and leaves the
    store as it is); and a batch whose items all bind the mandatory columns
    never raises, duplicates included. *)
Theorem add_job_dedup (cs : list Call) (k : string) :
  job_exists (run empty_store cs) (Some k) = true ->
  let s := run empty_store cs in
  stored s k = 1
  /\ (forall now d, get_linkedin_job_id d = Some k ->
        add_job now s d = (Returned None, s))
  /\ (forall now ds,
        match add_jobs_batch now s ds with
        | (Returned added, s') =>
            stored s' k = 1
            /\ forall j, In j added -> Job.linkedin_job_id j <> k
        | (Raised _, s') => s' = s
        end)
  /\ (forall now ds, forallb well_formed ds = true ->
        exists added s', add_jobs_batch now s ds = (Returned added, s')).
Proof.
  intros Hex s.
  assert (U : unique_ids s).
  { apply run_unique. constructor. }
  repeat split.
  - apply unique_stored_once; [exact U|].
    apply existsb_lid_In. exact Hex.
  - intros now d Hd. unfold add_job. rewrite Hd. fold s in Hex.
    rewrite Hex. reflexivity.
  - intros now ds. unfold add_jobs_batch.
    destruct (add_jobs_loop now s [] ds) as [[added s1]|ex] eqn:Hl;
      [|reflexivity].
    apply add_jobs_loop_spec in Hl as (Hu & Hk & _ & Hadd). split.
    + apply unique_stored_once; [now apply Hu|].
      apply existsb_lid_In. now apply (Hk k).
    + intros j Hin E. destruct (Hadd j Hin) as [[]|Hne].
      rewrite E in Hne. fold s in Hex. congruence.
  - intros now ds Hwf.
    destruct (add_jobs_loop_well_formed now ds s [] Hwf) as (added & s1 & Hl).
    exists added, s1. unfold add_jobs_batch. now rewrite Hl.
Qed.

Lemma add_job_dedup_witness :
  let d := job_data_of "42" "Backend Engineer" "Acme" true 1 in
  let s := run empty_store [CallAddJob 1 d] in
  stored s "42" = 1
  /\ add_job 2 s d = (Returned None, s)
  /\ fst (add_jobs_batch 3 s [d; d]) = Returned [].
Proof.
  intros d s.
  pose proof (add_job_dedup [CallAddJob 1 d] "42" eq_refl)
    as (H1 & H2 & _ & _).
  split; [exact H1|]. split; [apply H2; reflexivity|]. reflexivity.
Defined.

(** ** Application rows *)

Section ApplicationFacts.

Lemma next_id_above (ids : list nat) (x : nat) : In x ids -> x < next_id ids.
Proof.
  unfold next_id. induction ids as [|y ids IH]; simpl; [tauto|].
  intros [->|Hin]; [lia|]. specialize (IH Hin). lia.
Qed.

Lemma next_id_fresh (ids : list nat) : ~ In (next_id ids) ids.
Proof. intros Hin. apply next_id_above in Hin. lia. Qed.

Lemma write_status_id now st e a :
  Application.id (write_status now st e a) = Application.id a.
Proof.
  unfold write_status. destruct (truthy e), (status_in st _); reflexivity.
Qed.

Lemma write_status_status now st e a :
  Application.status (write_status now st e a) = value st.
Proof.
  unfold write_status. destruct (truthy e), (status_in st _); reflexivity.
Qed.

Lemma write_status_applied_at now st e a :
  Application.applied_at (write_status now st e a)
  = if status_in st [APPLIED; EASY_APPLY] then Some now
    else Application.applied_at a.
Proof.
  unfold write_status. destruct (truthy e), (status_in st _); reflexivity.
Qed.

Lemma success_status_value (a : Application.t) (st : ApplicationStatus) :
  Application.status a = value st ->
  success_status a = status_in st [APPLIED; EASY_APPLY].
Proof.
  unfold success_status, status_column_in. intros ->.
  destruct st; reflexivity.
Qed.

Lemma find_id_existsb i (rows : list Application.t) :
  existsb (fun a => Nat.eqb (Application.id a) i) rows = false ->
  find (fun a => Nat.eqb (Application.id a) i) rows = None.
Proof.
  induction rows as [|a rows IH]; simpl; [reflexivity|].
  destruct (Nat.eqb (Application.id a) i); [discriminate|exact IH].
Qed.

Lemma find_id_some i (rows : list Application.t) a :
  find (fun a => Nat.eqb (Application.id a) i) rows = Some a ->
  In a rows /\ Application.id a = i
  /\ existsb (fun a => Nat.eqb (Application.id a) i) rows = true.
Proof.
  intros Hf. pose proof (find_some _ _ Hf) as [Hin He].
  apply Nat.eqb_eq in He. repeat split; auto.
  apply existsb_exists. exists a. split; [exact Hin|]. now apply Nat.eqb_eq.
Qed.

Lemma replace_row_ids i new rows :
  Application.id new = i ->
  map Application.id (replace_row i new rows) = map Application.id rows.
Proof.
  intros Hi. induction rows as [|a rows IH]; simpl; [reflexivity|].
  destruct (Nat.eqb_spec (Application.id a) i) as [E|E]; simpl.
  - congruence.
  - now rewrite IH.
Qed.

Lemma replace_row_In i new rows a' :
  NoDup (map Application.id rows) ->
  In a' (replace_row i new rows) ->
  a' = new \/ (In a' rows /\ Application.id a' <> i).
Proof.
  induction rows as [|a rows IH]; simpl; intros Hnd Hin; [contradiction|].
  inversion Hnd as [|x xs Hnotin Hnd']; subst.
  destruct (Nat.eqb_spec (Application.id a) i) as [E|E].
  - destruct Hin as [<-|Hin]; [now left|]. right. split; [now right|].
    intros E'. apply Hnotin. rewrite E, <- E'. now apply in_map.
  - destruct Hin as [<-|Hin]; [right; split; [now left|exact E]|].
    destruct (IH Hnd' Hin) as [->|[Hin' Hne]]; [now left|].
    right. split; [now right|exact Hne].
Qed.

(** Position by position, [replace_row] changes at most the row the query
    finds. *)
Lemma replace_row_nth i new rows :
  forall n a, nth_error rows n = Some a ->
    exists a', nth_error (replace_row i new rows) n = Some a'
               /\ (a' = a
                   \/ (a' = new
                       /\ find (fun a => Nat.eqb (Application.id a) i) rows
                          = Some a)).
Proof.
  induction rows as [|b rows IH]; intros [|n] a Hn; simpl in *;
    try discriminate.
  - inversion Hn; subst.
    destruct (Nat.eqb (Application.id a) i); simpl; eauto.
  - destruct (Nat.eqb (Application.id b) i); simpl; eauto.
Qed.

Lemma exec_applications_of_jobs_calls s c :
  match c with
  | CallAddJob _ _ | CallAddJobsBatch _ _ =>
      applications (exec s c) = applications s
  | _ => True
  end.
Proof.
  destruct c as [now d|now ds|now j st cl r n|now i st e]; simpl; auto.
  - unfold add_job. destruct (job_exists _ _); [reflexivity|].
    destruct (insert_job now s d) as [[job s1]|ex] eqn:Hi; simpl;
      [|reflexivity].
    now apply insert_job_returned in Hi as (_ & Ha & _).
  - unfold add_jobs_batch.
    destruct (add_jobs_loop now s [] ds) as [[added s1]|ex] eqn:Hl; simpl;
      [|reflexivity].
    now apply add_jobs_loop_spec in Hl as (_ & _ & Ha & _).
Qed.

Lemma exec_marking_inv sm c : marking_inv sm -> marking_inv (exec_marking sm c).
Proof.
  destruct sm as [s marked]. intros (Hnd & Hsub & Hrows).
  pose proof (exec_applications_of_jobs_calls s c) as Hjobs.
  destruct c as [now d|now ds|now j st cl r n|now i st e];
    unfold exec_marking, marking_inv.
  - rewrite Hjobs. auto.
  - rewrite Hjobs. auto.
  - (* create_application *)
    unfold exec, create_application. cbn [snd applications].
    set (nid := next_id (map Application.id (applications s))).
    assert (Hfresh : ~ In nid (map Application.id (applications s)))
      by apply next_id_fresh.
    rewrite map_app. simpl map.
    set (new := Application.mk nid j (value st)
                  (if status_in st [APPLIED; EASY_APPLY] then Some now
                   else None) cl r n None).
    assert (Hs : success_status new = status_in st [APPLIED; EASY_APPLY])
      by (apply success_status_value; reflexivity).
    split; [now apply NoDup_snoc|]. split.
    + intros i Hi. apply in_or_app.
      destruct (status_in st [APPLIED; EASY_APPLY]); [|left; auto].
      destruct Hi as [<-|Hi]; [right; now left|left; auto].
    + intros a Ha. apply in_app_or in Ha as [Hin|[<-|[]]].
      * destruct (Hrows a Hin) as [H1 H2]. split; [exact H1|].
        rewrite H2. destruct (status_in st [APPLIED; EASY_APPLY]); [|tauto].
        simpl. split; [tauto|]. intros [E|Hm]; [|exact Hm].
        exfalso. apply Hfresh. rewrite E. now apply in_map.
      * rewrite Hs. unfold new at 1 2.
        cbn [Application.applied_at Application.id].
        destruct (status_in st [APPLIED; EASY_APPLY]).
        -- repeat split; intros; try congruence. now left.
        -- split; [discriminate|]. split; [congruence|].
           intros Hm. exfalso. apply Hfresh. now apply Hsub.
  - (* update_application_status *)
    simpl exec. unfold update_application_status.
    destruct (find _ (applications s)) as [app|] eqn:Hf.
    + apply find_id_some in Hf as (Hin & Hid & Hex). rewrite Hex.
      rewrite andb_true_r. simpl snd. simpl applications.
      set (new := write_status now st e app).
      assert (Hnew : Application.id new = i)
        by (unfold new; now rewrite write_status_id).
      rewrite replace_row_ids by exact Hnew.
      assert (Hi : In i (map Application.id (applications s)))
        by (rewrite <- Hid; now apply in_map).
      split; [exact Hnd|]. split.
      * intros k Hk. destruct (status_in st _); [|auto].
        destruct Hk as [<-|Hk]; auto.
      * intros a Ha. apply replace_row_In in Ha; [|exact Hnd].
        destruct Ha as [->|[Ha Hne]].
        -- rewrite (success_status_value new st)
             by (unfold new; apply write_status_status).
           unfold new at 1 2. rewrite write_status_applied_at, Hnew.
           destruct (status_in st _).
           ++ repeat split; intros; try congruence. now left.
           ++ split; [discriminate|].
              rewrite <- Hid. apply (Hrows app Hin).
        -- destruct (Hrows a Ha) as [H1 H2]. split; [exact H1|].
           rewrite H2. destruct (status_in st _); [|tauto].
           simpl. split; [tauto|]. intros [E|Hm]; [congruence|exact Hm].
    + assert (Hex : existsb (fun a => Nat.eqb (Application.id a) i)
                            (applications s) = false).
      { destruct (existsb _ (applications s)) eqn:E; [|reflexivity].
        apply existsb_exists in E as (x & Hx & Hxi).
        eapply find_none in Hf; [|exact Hx]. simpl in Hf. congruence. }
      rewrite Hex, andb_false_r. simpl. auto.
Qed.

Lemma fold_marking_inv cs :
  forall sm, marking_inv sm -> marking_inv (fold_left exec_marking cs sm).
Proof.
  induction cs as [|c cs IH]; simpl; intros sm Hinv; [exact Hinv|].
  apply IH. now apply exec_marking_inv.
Qed.

Lemma fold_marking_store cs :
  forall s marked,
    fst (fold_left exec_marking cs (s, marked)) = run s cs.
Proof.
  induction cs as [|c cs IH]; simpl; intros s marked; [reflexivity|].
  apply IH.
Qed.

End ApplicationFacts.

(** C3, as the specification states it, fails: after
    [create_application] (pending), an update to [easy_apply] and an update
    to [failed], the only row has status [failed] and still carries the
    timestamp of the successful update. *)
Lemma status_invariant_counterexample :
  ~ submitted_iff_success store_failed_after_success.
Proof.
  intros Hinv.
  destruct (Hinv _ (or_introl eq_refl)) as [Himp _].
  assert (Hs : Application.applied_at
                 (Application.mk 1 7 "failed" (Some 2) None None None
                                 (Some failure_message)) <> None)
    by discriminate.
  apply Himp in Hs. vm_compute in Hs. discriminate.
Qed.

(** C3, amended.  After any sequence of repository calls, for every
    application row: if its status is [applied] or [easy_apply] then
    [applied_at] is set; and [applied_at] is set exactly when some call gave
    the row a success status (at its creation or by an update), whatever
    its status is now. *)
Theorem submitted_iff_given_success (cs : list Call) (a : Application.t) :
  In a (applications (run empty_store cs)) ->
  (success_status a = true -> Application.applied_at a <> None)
  /\ (Application.applied_at a <> None
      <-> In (Application.id a) (given_success cs)).
Proof.
  intros Hin.
  assert (Hinv : marking_inv (fold_left exec_marking cs (empty_store, []))).
  { apply fold_marking_inv. simpl. repeat split; try constructor; tauto. }
  pose proof (fold_marking_store cs empty_store []) as Hst.
  unfold given_success.
  destruct (fold_left exec_marking cs (empty_store, [])) as [s marked].
  simpl in Hst. subst s. destruct Hinv as (_ & _ & Hrows).
  exact (Hrows a Hin).
Qed.

Lemma submitted_iff_given_success_witness :
  let a := Application.mk 1 7 "failed" (Some 2) None None None
                          (Some failure_message) in
  Application.applied_at a <> None
  <-> In 1 (given_success
              [ CallCreateApplication 1 7 PENDING None None None;
                CallUpdateApplicationStatus 2 1 EASY_APPLY None;
                CallUpdateApplicationStatus 3 1 FAILED (Some failure_message) ]).
Proof.
  intros a.
  exact (proj2 (submitted_iff_given_success
                  [ CallCreateApplication 1 7 PENDING None None None;
                    CallUpdateApplicationStatus 2 1 EASY_APPLY None;
                    CallUpdateApplicationStatus 3 1 FAILED
                                                (Some failure_message) ]
                  a (or_introl eq_refl))).
Defined.

Lemma find_id_exists i (rows : list Application.t) :
  In i (map Application.id rows) ->
  exists a, find (fun a => Nat.eqb (Application.id a) i) rows = Some a.
Proof.
  induction rows as [|b rows IH]; simpl; [tauto|].
  intros [E|Hin].
  - rewrite E, Nat.eqb_refl. eauto.
  - destruct (Nat.eqb (Application.id b) i); eauto.
Qed.

Lemma find_id_absent i (rows : list Application.t) :
  ~ In i (map Application.id rows) ->
  find (fun a => Nat.eqb (Application.id a) i) rows = None.
Proof.
  intros Hn. apply find_id_existsb.
  destruct (existsb _ rows) eqn:E; [|reflexivity].
  apply existsb_exists in E as (x & Hx & Hxi). apply Nat.eqb_eq in Hxi.
  exfalso. apply Hn. rewrite <- Hxi. now apply in_map.
Qed.

Lemma replace_row_new i new rows :
  In i (map Application.id rows) -> In new (replace_row i new rows).
Proof.
  induction rows as [|b rows IH]; simpl; [tauto|].
  destruct (Nat.eqb_spec (Application.id b) i) as [E|E].
  - intros _. now left.
  - intros [E'|Hin]; [contradiction|]. right. now apply IH.
Qed.

(** C6, as the specification states it, fails: an update of an id that no
    row has does not raise. *)
Lemma update_unknown_id_counterexample :
  ~ raises (fst (update_application_status 1 empty_store 99 FAILED None)).
Proof. intros [e He]. discriminate He. Qed.

(** C6, amended.  [update_application_status] with an id in the range of
    SQLite's INTEGER keys (below 2^63) that no row has returns [None]
    without raising and leaves the store as it is; with an id that a row
    has and a success status, it returns the row with the new status and
    with [applied_at] set to the time of the call, and that row is
    stored.  (An id beyond that range never reaches the query: the driver
    raises [OverflowError].) *)
Theorem update_unknown_id_returns_none (s : Store) (now : datetime)
        (i : nat) (st : ApplicationStatus) (e : option string) :
  (fits_sqlite_integer i ->
   ~ In i (map Application.id (applications s)) ->
     update_application_status now s i st e = (Returned None, s))
  /\ (In i (map Application.id (applications s)) ->
      status_in st [APPLIED; EASY_APPLY] = true ->
      exists a',
        fst (update_application_status now s i st e) = Returned (Some a')
        /\ Application.id a' = i
        /\ Application.status a' = value st
        /\ Application.applied_at a' = Some now
        /\ In a' (applications (snd (update_application_status now s i st e)))).
Proof.
  unfold update_application_status. split.
  - intros _ Hn. now rewrite find_id_absent.
  - intros Hin Hst. destruct (find_id_exists _ _ Hin) as [a Hf].
    rewrite Hf. simpl. eexists. split; [reflexivity|].
    rewrite write_status_id, write_status_status, write_status_applied_at, Hst.
    apply find_id_some in Hf as (_ & Hid & _).
    repeat split; auto. now apply replace_row_new.
Qed.

Lemma update_unknown_id_returns_none_witness :
  update_application_status 1 empty_store 99 FAILED None
  = (Returned None, empty_store)
  /\ exists a',
       fst (update_application_status 5 store_one_submitted 1 APPLIED None)
       = Returned (Some a')
       /\ Application.applied_at a' = Some 5.
Proof.
  split.
  - apply (proj1 (update_unknown_id_returns_none empty_store 1 99 FAILED None)).
    + reflexivity.
    + simpl. tauto.
  - destruct (proj2 (update_unknown_id_returns_none store_one_submitted 5 1
                       APPLIED None) (or_introl eq_refl) eq_refl)
      as (a' & H1 & _ & _ & H4 & _).
    exists a'. split; assumption.
Defined.




(** ** Statistics *)

Section StatsFacts.

Lemma counted_le_1 (v : string) : counted v <= 1.
Proof.
  unfold counted. simpl.
  destruct (String.eqb_spec v "pending") as [->|_]; [simpl; lia|].
  destruct (String.eqb_spec v "applied") as [->|_]; [simpl; lia|].
  destruct (String.eqb_spec v "easy_apply") as [->|_]; [simpl; lia|].
  destruct (String.eqb_spec v "skipped") as [->|_]; [simpl; lia|].
  destruct (String.eqb v "failed"); lia.
Qed.

Lemma counted_external : counted (value EXTERNAL) = 0.
Proof. reflexivity. Qed.

Lemma count_status_cons (js : list Job.t) a rows st :
  count_status (mkStore js (a :: rows)) st
  = (if String.eqb (Application.status a) (value st) then 1 else 0)
    + count_status (mkStore js rows) st.
Proof.
  unfold count_status. simpl.
  destruct (String.eqb (Application.status a) (value st)); reflexivity.
Qed.

Lemma counted_sum_cons js a rows :
  counted_sum (mkStore js (a :: rows))
  = counted (Application.status a) + counted_sum (mkStore js rows).
Proof.
  unfold counted_sum. rewrite !count_status_cons. unfold counted. simpl. lia.
Qed.

Lemma counted_sum_le js rows :
  counted_sum (mkStore js rows) <= List.length rows.
Proof.
  induction rows as [|a rows IH]; [reflexivity|].
  rewrite counted_sum_cons. simpl.
  pose proof (counted_le_1 (Application.status a)). lia.
Qed.

Lemma counted_sum_lt js rows :
  (exists a, In a rows /\ Application.status a = value EXTERNAL) ->
  counted_sum (mkStore js rows) < List.length rows.
Proof.
  induction rows as [|a rows IH]; intros (x & Hin & Hx); [destruct Hin|].
  rewrite counted_sum_cons. simpl List.length.
  destruct Hin as [->|Hin].
  - rewrite Hx, counted_external.
    pose proof (counted_sum_le js rows). lia.
  - pose proof (counted_le_1 (Application.status a)).
    assert (counted_sum (mkStore js rows) < List.length rows)
      by (apply IH; eauto).
    lia.
Qed.

End StatsFacts.

(** C10.  The dictionary [get_application_stats] returns has the keys
    [total_jobs], [total_applications], [applied], [easy_apply], [pending],
    [skipped] and [failed], and none for [external]; so in every store with
    an application whose status is [external], [total_applications] is
    strictly greater than the sum of the per-status counts returned. *)
Theorem stats_omit_external (s : Store) :
  (exists a, In a (applications s) /\ Application.status a = value EXTERNAL) ->
  let d := get_application_stats s in
  map fst d = [ "total_jobs"; "total_applications"; "applied"; "easy_apply";
                "pending"; "skipped"; "failed" ]
  /\ dict_get d (value EXTERNAL) = None
  /\ exists total,
       dict_get d "total_applications" = Some total
       /\ per_status_sum d < total.
Proof.
  intros Hext d. split; [reflexivity|]. split; [reflexivity|].
  exists (List.length (applications s)). split; [reflexivity|].
  destruct s as [js rows]. pose proof (counted_sum_lt js rows Hext) as Hlt.
  unfold counted_sum in Hlt. unfold per_status_sum, d. simpl in *. lia.
Qed.

Lemma stats_omit_external_witness :
  let s := run empty_store
               [ CallCreateApplication 1 7 EXTERNAL None None None;
                 CallCreateApplication 2 8 FAILED None None None ] in
  exists total,
    dict_get (get_application_stats s) "total_applications" = Some total
    /\ per_status_sum (get_application_stats s) < total.
Proof.
  intros s.
  assert (Hext : exists a, In a (applications s)
                           /\ Application.status a = value EXTERNAL).
  { eexists. split; [left; reflexivity|reflexivity]. }
  exact (proj2 (proj2 (stats_omit_external s Hext))).
Defined.

(** ** The eligibility query *)

Section QueryFacts.

Lemma insert_desc_In j l x : In x (insert_desc j l) <-> x = j \/ In x l.
Proof.
  induction l as [|y l IH]; simpl.
  - intuition.
  - destruct (Nat.leb (Job.scraped_at y) (Job.scraped_at j)); simpl.
    + intuition.
    + rewrite IH. intuition.
Qed.

Lemma order_by_In l x : In x (order_by_scraped_at_desc l) <-> In x l.
Proof.
  induction l as [|y l IH]; simpl; [tauto|].
  rewrite insert_desc_In, IH. intuition.
Qed.

Lemma insert_desc_sorted j l :
  StronglySorted newer_or_same l ->
  StronglySorted newer_or_same (insert_desc j l).
Proof.
  induction l as [|y l IH]; simpl; intros Hs.
  - repeat constructor.
  - inversion Hs as [|y' l' Hs' Hall]; subst.
    destruct (Nat.leb_spec (Job.scraped_at y) (Job.scraped_at j)) as [Hle|Hlt].
    + constructor; [exact Hs|]. constructor; [exact Hle|].
      eapply Forall_impl; [|exact Hall].
      unfold newer_or_same. intros z Hz. lia.
    + constructor; [now apply IH|].
      apply Forall_forall. intros z Hz. apply insert_desc_In in Hz.
      destruct Hz as [->|Hz].
      * unfold newer_or_same. lia.
      * rewrite Forall_forall in Hall. now apply Hall.
Qed.

Lemma order_by_sorted l :
  StronglySorted newer_or_same (order_by_scraped_at_desc l).
Proof.
  induction l as [|y l IH]; simpl; [constructor|].
  now apply insert_desc_sorted.
Qed.

Lemma firstn_In_list {A : Type} (n : nat) (l : list A) (x : A) :
  In x (firstn n l) -> In x l.
Proof.
  intros Hin. rewrite <- (firstn_skipn n l). apply in_or_app. now left.
Qed.

Lemma firstn_sorted (n : nat) (l : list Job.t) :
  StronglySorted newer_or_same l ->
  StronglySorted newer_or_same (firstn n l).
Proof.
  revert l. induction n as [|n IH]; intros [|y l] Hs; simpl; try constructor.
  - inversion Hs; subst. now apply IH.
  - inversion Hs as [|y' l' Hs' Hall]; subst.
    apply Forall_forall. intros z Hz. apply firstn_In_list in Hz.
    rewrite Forall_forall in Hall. now apply Hall.
Qed.

Lemma order_by_length l :
  List.length (order_by_scraped_at_desc l) = List.length l.
Proof.
  induction l as [|y l IH]; simpl; [reflexivity|].
  rewrite <- IH. generalize (order_by_scraped_at_desc l). intros l'.
  induction l' as [|z l' IH']; simpl; [reflexivity|].
  destruct (Nat.leb (Job.scraped_at z) (Job.scraped_at y)); simpl; auto.
Qed.

(** The [WHERE] clause, spelled out. *)
Lemma unapplied_easy_apply_iff s j :
  unapplied_easy_apply s j = true
  <-> Job.is_easy_apply j = true
      /\ forall a, In a (applications s) ->
           Application.job_id a = Job.id j ->
           status_column_in a [APPLIED; EASY_APPLY; SKIPPED] = false.
Proof.
  unfold unapplied_easy_apply, applied_job_ids.
  rewrite andb_true_iff, negb_true_iff. apply and_iff_compat_l.
  split.
  - intros Hex a Hin Hid.
    destruct (status_column_in a _) eqn:Hb; [|reflexivity].
    assert (Ht : existsb (Nat.eqb (Job.id j))
                   (map Application.job_id
                      (filter (fun a => status_column_in a
                                          [APPLIED; EASY_APPLY; SKIPPED])
                              (applications s))) = true).
    { apply existsb_exists. exists (Application.job_id a). split.
      - apply in_map, filter_In. split; assumption.
      - rewrite Hid. apply Nat.eqb_refl. }
    congruence.
  - intros Hall. destruct (existsb _ _) eqn:Hb; [|reflexivity].
    apply existsb_exists in Hb as (x & Hx & Hxj).
    apply in_map_iff in Hx as (a & Ha & Hin). apply filter_In in Hin.
    destruct Hin as [Hin Hblk]. apply Nat.eqb_eq in Hxj.
    rewrite (Hall a Hin) in Hblk; [discriminate|congruence].
Qed.

Lemma pending_or_failed_not_blocking a :
  Application.status a = value PENDING \/ Application.status a = value FAILED ->
  status_column_in a [APPLIED; EASY_APPLY; SKIPPED] = false.
Proof.
  unfold status_column_in. intros [-> | ->]; reflexivity.
Qed.

Lemma sorted_app_between (l1 l2 : list Job.t) x y :
  StronglySorted newer_or_same (l1 ++ l2) ->
  In x l1 -> In y l2 -> newer_or_same x y.
Proof.
  induction l1 as [|a l1 IH]; simpl; intros Hs Hx Hy; [destruct Hx|].
  inversion Hs as [|a' l' Hs' Hall]; subst.
  destruct Hx as [->|Hx]; [|now apply IH].
  rewrite Forall_forall in Hall. apply Hall, in_or_app. now right.
Qed.

End QueryFacts.

(** The limit applies after the ordering: with two quick-apply listings
    that have no blocking application and limit 1, the older one (whose
    only application failed) waits for a later call. *)
Remark limit_leaves_out_older_listing :
  ~ retryable_included store_two_retryable 1.
Proof.
  intros Hinc.
  assert (Hin : In (Job.mk 1 "1" "Job 1" "Company 1" None None None None None
                           None None None true 1 None)
                   (get_unapplied_easy_apply_jobs store_two_retryable 1)).
  { apply Hinc.
    - left. reflexivity.
    - reflexivity.
    - intros a [<-|[]] _. right. reflexivity. }
  vm_compute in Hin. destruct Hin as [Heq|[]]. discriminate Heq.
Qed.

(** C4.  For every store and limit, the result of
    [get_unapplied_easy_apply_jobs]: holds only stored listings with
    [is_easy_apply] true that have no application whose status is
    [applied], [easy_apply] or [skipped]; a quick-apply listing whose
    applications are all pending or failed passes the filter (it is in the
    unlimited result) and is in the result unless the limit is used up by
    listings scraped no earlier than it; the result is the first [limit]
    listings of the unlimited one, is ordered most recently scraped first,
    and has at most [limit] elements. *)
Theorem unapplied_easy_apply_jobs_spec (s : Store) (limit : nat) :
  let r := get_unapplied_easy_apply_jobs s limit in
  let all := get_unapplied_easy_apply_jobs s (List.length (jobs s)) in
  (forall j, In j r ->
     In j (jobs s)
     /\ Job.is_easy_apply j = true
     /\ forall a, In a (applications s) ->
          Application.job_id a = Job.id j ->
          status_column_in a [APPLIED; EASY_APPLY; SKIPPED] = false)
  /\ (forall j, In j (jobs s) -> Job.is_easy_apply j = true ->
        only_pending_or_failed s j ->
        In j all
        /\ (In j r
            \/ (List.length r = limit
                /\ forall j', In j' r -> newer_or_same j' j)))
  /\ r = firstn limit all
  /\ StronglySorted newer_or_same r
  /\ List.length r <= limit.
Proof.
  intros r all.
  set (el := order_by_scraped_at_desc
               (filter (unapplied_easy_apply s) (jobs s))).
  assert (Hall : all = el).
  { unfold all, get_unapplied_easy_apply_jobs. fold el.
    apply firstn_all2. unfold el. rewrite order_by_length.
    apply filter_length_le. }
  assert (Hr : r = firstn limit el) by reflexivity.
  split; [|split; [|split; [|split]]].
  - intros j Hj. rewrite Hr in Hj. apply firstn_In_list in Hj.
    apply order_by_In, filter_In in Hj as [Hin Hw].
    apply unapplied_easy_apply_iff in Hw. tauto.
  - intros j Hin Heasy Honly.
    assert (Hel : In j el).
    { apply order_by_In, filter_In. split; [exact Hin|].
      apply unapplied_easy_apply_iff. split; [exact Heasy|].
      intros a Ha Hid. apply pending_or_failed_not_blocking.
      now apply Honly. }
    rewrite Hall. split; [exact Hel|]. rewrite Hr.
    rewrite <- (firstn_skipn limit el) in Hel.
    apply in_app_or in Hel as [Hfirst|Hrest]; [now left|]. right. split.
    + apply firstn_length_le.
      destruct (Nat.le_gt_cases limit (List.length el)) as [Hle|Hgt];
        [exact Hle|].
      rewrite skipn_all2 in Hrest by lia. destruct Hrest.
    + intros j' Hj'.
      apply (sorted_app_between (firstn limit el) (skipn limit el));
        [|exact Hj'|exact Hrest].
      rewrite firstn_skipn. apply order_by_sorted.
  - now rewrite Hall.
  - rewrite Hr. apply firstn_sorted, order_by_sorted.
  - rewrite Hr. apply firstn_le_length.
Qed.

Lemma unapplied_easy_apply_jobs_spec_witness :
  let j1 := Job.mk 1 "1" "Job 1" "Company 1" None None None None None
                   None None None true 1 None in
  In j1 (get_unapplied_easy_apply_jobs store_two_retryable 2)
  /\ Job.is_easy_apply j1 = true.
Proof.
  intros j1.
  destruct (unapplied_easy_apply_jobs_spec store_two_retryable 2)
    as (Hsound & Hretry & _ & _ & _).
  assert (Hin : In j1 (get_unapplied_easy_apply_jobs store_two_retryable 2)).
  { apply (Hretry j1).
    - left. reflexivity.
    - reflexivity.
    - intros a [<-|[]] _. right. reflexivity. }
  split; [exact Hin|]. exact (proj1 (proj2 (Hsound j1 Hin))).
Defined.

(** * Properties of the resume selector *)

Section SelectorFacts.
Context {F : Type} `{Score F}.

Lemma score_all_none_positive text (profiles : Profiles F) :
  (forall name p, In (name, p) profiles ->
     gt_zero (score (score_profile text p)) = false) ->
  existsb (fun s => gt_zero (score (snd s))) (score_all text profiles) = false.
Proof.
  intros Hall. destruct (existsb _ _) eqn:E; [|reflexivity].
  apply existsb_exists in E as ([name info] & Hin & Hpos).
  unfold score_all in Hin. apply in_map_iff in Hin as ([name' p] & Heq & Hin).
  inversion Heq; subst. simpl in Hpos.
  rewrite (Hall _ _ Hin) in Hpos. discriminate.
Qed.

End SelectorFacts.

(** C7.  With at least one profile loaded and no profile scoring above
    zero on the given title, description and company, [select_resume]
    returns the path of the first profile in load order, not [None].
    [select_resume] is a function of the loaded profiles and its three
    arguments, so equal inputs give equal results. *)
Theorem select_resume_falls_back_to_first
        {F : Type} `{Score F} (resumes_dir_join : string -> string)
        (name0 : string) (p0 : Profile F) (rest : Profiles F)
        (job_title : string) (job_description company : option string) :
  (forall name p, In (name, p) ((name0, p0) :: rest) ->
     gt_zero (score_of job_title job_description company p) = false) ->
  select_resume resumes_dir_join ((name0, p0) :: rest)
                job_title job_description company
  = Some (resumes_dir_join (file p0)).
Proof.
  intros Hnone. unfold select_resume.
  destruct rest as [|q rest]; [reflexivity|].
  rewrite score_all_none_positive; [reflexivity|].
  exact Hnone.
Qed.

Lemma select_resume_falls_back_to_first_witness :
  select_resume resumes_join two_profiles "Gardener"
                (Some "Pruning hedges") (Some "Green Thumb")
  = Some "resumes/Backend.pdf".
Proof.
  apply (select_resume_falls_back_to_first resumes_join "backend").
  intros name p [Heq|[Heq|[]]]; inversion Heq; subst; vm_compute; reflexivity.
Defined.

(** C8.  With exactly one profile loaded, [select_resume] returns that
    profile's path for every title, description and company, the empty ones
    included; the keywords and the weight of the profile play no part. *)
Theorem select_resume_single_profile
        {F : Type} `{Score F} (resumes_dir_join : string -> string)
        (name : string) (p : Profile F)
        (job_title : string) (job_description company : option string) :
  select_resume resumes_dir_join [(name, p)] job_title job_description company
  = Some (resumes_dir_join (file p))
  /\ select_resume resumes_dir_join [(name, p)] EmptyString None None
     = Some (resumes_dir_join (file p))
  /\ forall kws w,
       select_resume resumes_dir_join [(name, mkProfile (file p) kws w)]
                     job_title job_description company
       = select_resume resumes_dir_join [(name, p)]
                       job_title job_description company.
Proof. repeat split. Qed.

(** * Properties of the form loop *)

(** Taking a monadic computation apart along the calls it makes. *)
Lemma bind_returned {St A B : Type} (m : M St A) (k : A -> M St B)
      (w w' : St) (r : B) :
  bind m k w = (Returned r, w') ->
  exists a w1, m w = (Returned a, w1) /\ k a w1 = (Returned r, w').
Proof.
  unfold bind. destruct (m w) as [[a|e] w1]; [eauto|discriminate].
Qed.

Tactic Notation "bind_step" hyp(H) "as" simple_intropattern(a)
       simple_intropattern(w) simple_intropattern(E) :=
  apply bind_returned in H as (a & w & E & H); cbv beta in H.

Tactic Notation "bind_skip" hyp(H) :=
  apply bind_returned in H as (? & ? & _ & H); cbv beta in H.

Tactic Notation "bind_skip" hyp(H) "as" simple_intropattern(a) :=
  apply bind_returned in H as (a & ? & _ & H); cbv beta in H.

Section LoopFacts.
Context {World Elem : Type} (page : Collaborator World Elem).
Context {F : Type} `{Score F}.
Variable settings : Settings.
Variable resume_selector : option (Profiles F).
Variable resumes_dir_join : string -> string.
Variable cover_letter_generator : bool.
Variable path_str : string -> string.

Local Abbreviation step_of :=
  (modal_step page settings resume_selector resumes_dir_join
              cover_letter_generator path_str).
Local Abbreviation loop :=
  (while_steps page settings resume_selector resumes_dir_join
               cover_letter_generator path_str).









End LoopFacts.



(** * Properties of the batch runner *)

Section RunnerFacts.
Context {World Elem : Type} (page : Collaborator World Elem).
Context {F : Type} `{Score F}.
Variable settings : Settings.
Variable resume_selector : option (Profiles F).
Variable resumes_dir_join : string -> string.
Variable cover_letter_generator : bool.
Variable path_str : string -> string.
Variable clock : World -> datetime.

Local Abbreviation apply_one :=
  (apply_to_job page settings resume_selector resumes_dir_join
                cover_letter_generator path_str).
Local Abbreviation process :=
  (process_job page settings resume_selector resumes_dir_join
               cover_letter_generator path_str clock).

(** Each of the three pre-checks makes [apply_to_job] return [False]. *)
Lemma not_eligible_returns_false job w :
  not_eligible page job w -> exists w', apply_one job w = (Returned false, w').
Proof.
  assert (Hprior : forall w2 w3 (k : bool -> M World bool),
             no_prior_application page w2 w3 ->
             bind (query_selector page sel_already_applied)
                  (fun already_applied =>
                     bind (match already_applied with
                           | Some el =>
                               bind (inner_text page el)
                                    (fun text =>
                                       ret (contains "applied" (lower text)))
                           | None => ret false
                           end) k) w2
             = k false w3).
  { intros w2 w3 k [Hq|(el & w' & text & Hq & Ht & Hc)]; unfold bind, ret.
    - now rewrite Hq.
    - now rewrite Hq, Ht, Hc. }
  intros [w2 w3 w4 el text (w1 & Hg & Hw) Hq Ht Hc
         |w2 w3 w4 (w1 & Hg & Hw) Hno Hq
         |w2 w3 w4 w5 btn btn_text (w1 & Hg & Hw) Hno Hq Ht Hc];
    unfold apply_to_job, try_except.
  - unfold bind at 1. rewrite Hg. unfold bind at 1. rewrite Hw.
    unfold bind, ret. rewrite Hq, Ht, Hc. eauto.
  - unfold bind at 1. rewrite Hg. unfold bind at 1. rewrite Hw.
    rewrite (Hprior _ _ _ Hno). unfold bind, ret. rewrite Hq. eauto.
  - unfold bind at 1. rewrite Hg. unfold bind at 1. rewrite Hw.
    rewrite (Hprior _ _ _ Hno). unfold bind, ret. rewrite Hq, Ht, Hc.
    simpl. eauto.
Qed.

Lemma find_fresh_row (rows : list Application.t) (new : Application.t) :
  Application.id new = next_id (map Application.id rows) ->
  find (fun a => Nat.eqb (Application.id a) (Application.id new))
       (rows ++ [new]) = Some new.
Proof.
  intros Hid.
  assert (Hfresh : forall a, In a rows ->
             Nat.eqb (Application.id a) (Application.id new) = false).
  { intros a Ha. apply Nat.eqb_neq. intros E.
    apply (next_id_fresh (map Application.id rows)).
    rewrite <- Hid, <- E. now apply in_map. }
  clear Hid. induction rows as [|b rows IH]; simpl.
  - now rewrite Nat.eqb_refl.
  - rewrite (Hfresh b) by now left. apply IH. intros a Ha. apply Hfresh.
    now right.
Qed.

Lemma replace_fresh_row (rows : list Application.t) (new x : Application.t) :
  Application.id new = next_id (map Application.id rows) ->
  replace_row (Application.id new) x (rows ++ [new]) = (rows ++ [x])%list.
Proof.
  intros Hid.
  assert (Hfresh : forall a, In a rows ->
             Nat.eqb (Application.id a) (Application.id new) = false).
  { intros a Ha. apply Nat.eqb_neq. intros E.
    apply (next_id_fresh (map Application.id rows)).
    rewrite <- Hid, <- E. now apply in_map. }
  clear Hid. induction rows as [|b rows IH]; simpl.
  - now rewrite Nat.eqb_refl.
  - rewrite (Hfresh b) by now left. f_equal. apply IH. intros a Ha.
    apply Hfresh. now right.
Qed.

(** Whenever [apply_to_job] returns [False], [process_job] leaves a new
    application row for the job with status [failed]. *)
Lemma process_job_failure job (r : Runner World) w' :
  apply_one job (world r) = (Returned false, w') ->
  exists resume_to_use,
    let row := Application.mk
                 (next_id (map Application.id (applications (repository r))))
                 (Job.id job) (value FAILED) None None (Some resume_to_use)
                 None (Some failure_message) in
    repository (snd (process job r))
    = mkStore (jobs (repository r)) (applications (repository r) ++ [row])
    /\ stats (snd (process job r))
       = mkStats (attempted (stats r) + 1) (successful (stats r))
                 (skipped (stats r)) (failed (stats r) + 1).
Proof.
  intros Happ.
  set (resume :=
         match resume_selector with
         | Some profiles =>
             if truthy (selected_resume_for resumes_dir_join profiles job)
             then or_empty (selected_resume_for resumes_dir_join profiles job)
             else resume_path settings
         | None => resume_path settings
         end).
  exists resume. cbv zeta.
  set (nid := next_id (map Application.id (applications (repository r)))).
  set (new := Application.mk nid (Job.id job) (value PENDING) None None
                             (Some resume) None None).
  assert (Hnid : Application.id new
                 = next_id (map Application.id (applications (repository r))))
    by reflexivity.
  assert (Hrun : exists o w'',
             process job r
             = (o, mkRunner
                     (mkStore (jobs (repository r))
                        (applications (repository r)
                           ++ [Application.mk nid (Job.id job) (value FAILED)
                                 None None (Some resume) None
                                 (Some failure_message)]))
                     (mkStats (attempted (stats r) + 1) (successful (stats r))
                              (skipped (stats r)) (failed (stats r) + 1))
                     w'')).
  { unfold process_job. fold resume.
    unfold bind at 1. unfold count_attempted at 1. cbv beta iota.
    unfold bind at 1. unfold repo_create_application at 1.
    unfold create_application. cbv beta iota zeta.
    cbn [world repository stats status_in existsb ApplicationStatus_eqb orb].
    fold nid. fold new.
    unfold bind at 1. unfold on_world at 1. cbn [world repository stats].
    rewrite Happ. cbv beta iota.
    unfold bind at 1. unfold bind at 1. unfold count_failed at 1.
    cbv beta iota. cbn [world repository stats].
    unfold bind at 1. unfold repo_update_application_status at 1.
    unfold update_application_status.
    cbn [world repository stats applications jobs attempted successful
         skipped failed].
    rewrite (find_fresh_row _ new Hnid).
    rewrite (replace_fresh_row _ new _ Hnid).
    cbv beta iota. unfold ret at 1. cbv beta iota.
    unfold on_world. cbn [world repository stats].
    destruct (sleep page 5 w') as [o w'']. 
    exists (match o with Returned _ => o | Raised e => Raised e end), w''.
    destruct o; reflexivity. }
  destruct Hrun as (o & w'' & ->). split; reflexivity.
Qed.

End RunnerFacts.

(** C5, as the specification states it, fails: on a page with no Easy
    Apply button [apply_to_job] finds the listing not eligible, and after
    [process_job] no application row of that listing has status
    [skipped]. *)
Lemma not_eligible_skipped_counterexample :
  not_eligible quiet_page job_42 (world runner_with_job_42)
  /\ ~ marked_skipped job_42
         (snd (process_job quiet_page default_settings (Some two_profiles)
                           resumes_join false (fun p => p) (fun w => w)
                           job_42 runner_with_job_42)).
Proof.
  split.
  - apply no_apply_button with (w2 := 1) (w3 := 1) (w4 := 1).
    + exists 0. split; reflexivity.
    + left. reflexivity.
    + reflexivity.
  - intros (a & Hin & _ & Hst). vm_compute in Hin.
    destruct Hin as [<-|[]]. discriminate Hst.
Qed.

(** C5, amended.  When [apply_to_job] determines that a listing is not
    eligible (the page signals a prior application, there is no apply
    button, or the button is not the Easy Apply one) it returns [False],
    and the batch runner marks the application row it created for the
    listing [failed], with the message "Application could not be
    completed" and no [applied_at]; it counts the attempt as failed, not
    as skipped, and adds no row with status [skipped]. *)
Theorem not_eligible_marked_failed
        {World Elem : Type} (page : Collaborator World Elem)
        {F : Type} `{Score F}
        (settings : Settings) (resume_selector : option (Profiles F))
        (resumes_dir_join : string -> string) (cover_letter_generator : bool)
        (path_str : string -> string) (clock : World -> datetime)
        (job : Job.t) (r : Runner World) :
  not_eligible page job (world r) ->
  let r' := snd (process_job page settings resume_selector resumes_dir_join
                             cover_letter_generator path_str clock job r) in
  (exists w', apply_to_job page settings resume_selector resumes_dir_join
                           cover_letter_generator path_str job (world r)
              = (Returned false, w'))
  /\ (exists row,
        applications (repository r')
        = (applications (repository r) ++ [row])%list
        /\ Application.job_id row = Job.id job
        /\ Application.status row = value FAILED
        /\ Application.error_message row = Some failure_message
        /\ Application.applied_at row = None)
  /\ failed (stats r') = failed (stats r) + 1
  /\ skipped (stats r') = skipped (stats r)
  /\ (forall a, In a (applications (repository r')) ->
        Application.status a = value SKIPPED ->
        In a (applications (repository r))).
Proof.
  intros Hne r'.
  destruct (not_eligible_returns_false page settings resume_selector
              resumes_dir_join cover_letter_generator path_str job (world r)
              Hne) as [w' Happ].
  destruct (process_job_failure page settings resume_selector resumes_dir_join
              cover_letter_generator path_str clock job r w' Happ)
    as (resume & Hrepo & Hstats).
  fold r' in Hrepo, Hstats. rewrite Hrepo, Hstats. simpl.
  split; [eauto|]. split; [eexists; repeat split|].
  split; [reflexivity|]. split; [reflexivity|].
  intros a Hin Hst. apply in_app_or in Hin as [Hin|[<-|[]]]; [exact Hin|].
  discriminate Hst.
Qed.

Lemma not_eligible_marked_failed_witness :
  map Application.status
      (applications
         (repository
            (snd (process_job quiet_page default_settings (Some two_profiles)
                              resumes_join false (fun p => p) (fun w => w)
                              job_42 runner_with_job_42))))
  = [value FAILED].
Proof.
  assert (Hne : not_eligible quiet_page job_42 (world runner_with_job_42)).
  { apply no_apply_button with (w2 := 1) (w3 := 1) (w4 := 1).
    - exists 0. split; reflexivity.
    - left. reflexivity.
    - reflexivity. }
  destruct (not_eligible_marked_failed quiet_page default_settings
              (Some two_profiles) resumes_join false (fun p => p)
              (fun w => w) job_42 runner_with_job_42 Hne)
    as (_ & (row & Hrows & _ & Hst & _) & _).
  rewrite Hrows. simpl. now rewrite Hst.
Defined.

(** * Further properties of the store *)

Section MoreStoreFacts.

Lemma find_snoc {A : Type} (f : A -> bool) (l : list A) (x : A) :
  find f (l ++ [x])
  = match find f l with
    | Some y => Some y
    | None => if f x then Some x else None
    end.
Proof.
  induction l as [|a l IH]; simpl; [reflexivity|].
  destruct (f a); [reflexivity|exact IH].
Qed.

Lemma find_lid_absent (k : string) (l : list Job.t) :
  ~ In k (map Job.linkedin_job_id l) ->
  find (fun j => String.eqb (Job.linkedin_job_id j) k) l = None.
Proof.
  induction l as [|a l IH]; simpl; intros Hn; [reflexivity|].
  destruct (String.eqb_spec (Job.linkedin_job_id a) k) as [E|E].
  - exfalso. apply Hn. now left.
  - apply IH. tauto.
Qed.

(** The columns of an inserted row are the dictionary's values, with the
    defaults of the model for the absent ones. *)
Lemma insert_job_columns now s d job s' :
  insert_job now s d = Returned (job, s') ->
  JobData.title d = Some (Job.title job)
  /\ JobData.company d = Some (Job.company job)
  /\ Job.is_easy_apply job = or_default (JobData.is_easy_apply d) false
  /\ Job.scraped_at job = or_default (JobData.scraped_at d) now
  /\ Job.description job = JobData.description d
  /\ Job.id job = next_id (map Job.id (jobs s)).
Proof.
  unfold insert_job.
  destruct (JobData.linkedin_job_id d) as [[k|]|]; try discriminate.
  destruct (JobData.title d) as [ti|]; try discriminate.
  destruct (JobData.company d) as [co|]; try discriminate.
  destruct (existsb _ (jobs s)); try discriminate.
  intros Heq. inversion Heq; subst. simpl. repeat split.
Qed.

Lemma add_job_returned now s d job s' :
  add_job now s d = (Returned (Some job), s') ->
  insert_job now s d = Returned (job, s').
Proof.
  unfold add_job. destruct (job_exists _ _); [discriminate|].
  destruct (insert_job now s d) as [[j s1]|e]; intros Heq;
    inversion Heq; subst; reflexivity.
Qed.

End MoreStoreFacts.

(** X1.  A job that [add_job] returns is stored: looking its
    [linkedin_job_id] up returns exactly that job (and returned nothing
    before), the count grows by one, every other lookup and the
    application table are as before, and the row holds the dictionary's
    title and company, with [is_easy_apply] defaulting to false and
    [scraped_at] to the time of the call. *)
Theorem add_job_then_lookup (now : datetime) (s s' : Store) (d : JobData.t)
        (job : Job.t) :
  add_job now s d = (Returned (Some job), s') ->
  get_job_by_linkedin_id s' (Job.linkedin_job_id job) = Some job
  /\ get_job_by_linkedin_id s (Job.linkedin_job_id job) = None
  /\ job_exists s' (Some (Job.linkedin_job_id job)) = true
  /\ get_job_count s' = S (get_job_count s)
  /\ (forall k, k <> Job.linkedin_job_id job ->
        get_job_by_linkedin_id s' k = get_job_by_linkedin_id s k)
  /\ applications s' = applications s
  /\ JobData.title d = Some (Job.title job)
  /\ JobData.company d = Some (Job.company job)
  /\ Job.is_easy_apply job = or_default (JobData.is_easy_apply d) false
  /\ Job.scraped_at job = or_default (JobData.scraped_at d) now.
Proof.
  intros Hadd. apply add_job_returned in Hadd.
  pose proof (insert_job_returned _ _ _ _ _ Hadd) as (Hj & Ha & _ & Hn).
  pose proof (insert_job_columns _ _ _ _ _ Hadd) as (Ht & Hc & He & Hs & _).
  unfold get_job_by_linkedin_id, get_job_count. rewrite Hj.
  pose proof (find_lid_absent _ _ Hn) as Hnone.
  repeat split; auto.
  - rewrite find_snoc, Hnone, String.eqb_refl. reflexivity.
  - simpl. rewrite Hj, existsb_app. simpl. rewrite String.eqb_refl.
    apply orb_true_iff. right. reflexivity.
  - rewrite length_app. simpl. lia.
  - intros k Hk. rewrite find_snoc.
    destruct (find (fun j => String.eqb (Job.linkedin_job_id j) k) (jobs s));
      [reflexivity|].
    destruct (String.eqb_spec (Job.linkedin_job_id job) k); congruence.
Qed.

Lemma add_job_then_lookup_witness :
  let d := job_data_of "42" "Backend Engineer" "Acme" true 1 in
  exists job s',
    add_job 5 empty_store d = (Returned (Some job), s')
    /\ get_job_by_linkedin_id s' "42" = Some job.
Proof.
  intros d.
  destruct (add_job 5 empty_store d) as [[[job|]|e] s'] eqn:Hadd;
    try discriminate Hadd.
  exists job, s'. split; [reflexivity|].
  pose proof (add_job_then_lookup 5 empty_store s' d job Hadd) as (Hl & _).
  assert (Hk : Job.linkedin_job_id job = "42").
  { vm_compute in Hadd. inversion Hadd. reflexivity. }
  rewrite Hk in Hl. exact Hl.
Defined.

(** X2.  The duplicate check of [add_job] comes before the storage layer
    sees the row: a dictionary that lacks a mandatory column (id, title or
    company) raises [IntegrityError] and leaves the store as it is when
    its id is not stored, but is reported as a duplicate ([None], no
    error) when its id is stored. *)
Theorem add_job_missing_column (now : datetime) (s : Store) (d : JobData.t) :
  well_formed d = false ->
  (job_exists s (get_linkedin_job_id d) = false ->
     add_job now s d = (Raised IntegrityError, s))
  /\ (job_exists s (get_linkedin_job_id d) = true ->
      add_job now s d = (Returned None, s)).
Proof.
  intros Hwf. unfold add_job. split; intros ->; [|reflexivity].
  unfold insert_job. unfold well_formed in Hwf.
  destruct (JobData.linkedin_job_id d) as [[k|]|]; try reflexivity.
  destruct (JobData.title d); try reflexivity.
  destruct (JobData.company d); try reflexivity. discriminate.
Qed.

Lemma add_job_missing_column_witness :
  let d := JobData.mk (Some (Some "42")) None (Some "Acme") None None None
                      None None None None None None None None in
  add_job 1 empty_store d = (Raised IntegrityError, empty_store)
  /\ add_job 2 (run empty_store
                    [CallAddJob 1 (job_data_of "42" "T" "Acme" true 1)]) d
     = (Returned None,
        run empty_store [CallAddJob 1 (job_data_of "42" "T" "Acme" true 1)]).
Proof.
  intros d. split.
  - apply (proj1 (add_job_missing_column 1 empty_store d eq_refl)).
    reflexivity.
  - apply (proj2 (add_job_missing_column 2 _ d eq_refl)). reflexivity.
Defined.

Section BatchFacts.

Lemma add_jobs_loop_add_each now ds :
  forall s acc,
    add_jobs_loop now s acc ds
    = match add_each now s ds with
      | Returned (more, s') => Returned ((acc ++ more)%list, s')
      | Raised e => Raised e
      end.
Proof.
  induction ds as [|d ds IH]; simpl; intros s acc.
  - now rewrite app_nil_r.
  - unfold add_job. destruct (job_exists s (get_linkedin_job_id d)).
    + rewrite IH. destruct (add_each now s ds) as [[more s2]|e]; reflexivity.
    + destruct (insert_job now s d) as [[job s1]|e]; [|reflexivity].
      rewrite IH. destruct (add_each now s1 ds) as [[more s2]|e];
        [|reflexivity].
      now rewrite <- app_assoc.
Qed.

Lemma job_exists_some s o :
  job_exists s o = true -> exists k, o = Some k.
Proof. destruct o; [eauto|discriminate]. Qed.

Lemma add_jobs_loop_accounting now ds :
  forall s acc acc' s',
    add_jobs_loop now s acc ds = Returned (acc', s') ->
    exists new,
      acc' = (acc ++ new)%list
      /\ jobs s' = (jobs s ++ new)%list
      /\ List.length new <= List.length ds
      /\ forall d, In d ds -> job_exists s' (get_linkedin_job_id d) = true.
Proof.
  induction ds as [|d ds IH]; simpl; intros s acc acc' s' Hl.
  - inversion Hl; subst. exists []. rewrite !app_nil_r. repeat split; auto.
  - destruct (job_exists s (get_linkedin_job_id d)) eqn:Ex.
    + pose proof (add_jobs_loop_spec _ _ _ _ _ _ Hl) as (_ & Hk & _).
      destruct (IH _ _ _ _ Hl) as (new & Ha & Hj & Hlen & Hall).
      exists new. repeat split; auto.
      intros d' [<-|Hin]; [|now apply Hall].
      destruct (job_exists_some _ _ Ex) as [k Hk']. rewrite Hk' in *.
      now apply Hk.
    + destruct (insert_job now s d) as [[job s1]|e] eqn:Hi; [|discriminate].
      pose proof (add_jobs_loop_spec _ _ _ _ _ _ Hl) as (_ & Hk & _).
      destruct (IH _ _ _ _ Hl) as (new & Ha & Hj & Hlen & Hall).
      pose proof (insert_job_returned _ _ _ _ _ Hi) as (Hj1 & _ & Hid & _).
      exists (job :: new). rewrite Ha, Hj, Hj1, <- !app_assoc. simpl.
      repeat split; auto; [lia|].
      intros d' [<-|Hin]; [|now apply Hall].
      unfold get_linkedin_job_id. rewrite Hid. apply Hk.
      simpl. rewrite Hj1, existsb_app. simpl. rewrite String.eqb_refl.
      apply orb_true_iff. right. reflexivity.
Qed.

End BatchFacts.

(** X3.  [add_jobs_batch] is [add_job] applied to each dictionary in turn,
    made atomic: when none of those calls raises, the batch returns the
    jobs they return, in order, and leaves the store they leave; when one
    of them raises, the batch raises the same exception and the store is as
    before the batch, the rows of the earlier dictionaries included. *)
Theorem add_jobs_batch_is_add_each (now : datetime) (s : Store)
        (ds : list JobData.t) :
  add_jobs_batch now s ds
  = match add_each now s ds with
    | Returned (added, s') => (Returned added, s')
    | Raised e => (Raised e, s)
    end.
Proof.
  unfold add_jobs_batch. rewrite add_jobs_loop_add_each.
  destruct (add_each now s ds) as [[more s']|e]; reflexivity.
Qed.

(** X4.  After any sequence of repository calls, a batch insert that
    returns appends exactly the returned jobs to the job table: the count
    grows by their number, which is at most the size of the batch; they
    carry pairwise different ids; the id of every dictionary of the batch
    is stored afterwards; and the application table is untouched. *)
Theorem add_jobs_batch_accounting (cs : list Call) (now : datetime)
        (ds : list JobData.t) (added : list Job.t) (s' : Store) :
  let s := run empty_store cs in
  add_jobs_batch now s ds = (Returned added, s') ->
  jobs s' = (jobs s ++ added)%list
  /\ get_job_count s' = get_job_count s + List.length added
  /\ List.length added <= List.length ds
  /\ NoDup (map Job.linkedin_job_id added)
  /\ (forall d, In d ds -> job_exists s' (get_linkedin_job_id d) = true)
  /\ applications s' = applications s.
Proof.
  intros s. unfold add_jobs_batch.
  destruct (add_jobs_loop now s [] ds) as [[added' s1]|e] eqn:Hl;
    [|discriminate].
  intros Heq. inversion Heq; subst; clear Heq.
  destruct (add_jobs_loop_accounting _ _ _ _ _ _ Hl)
    as (new & Ha & Hj & Hlen & Hall).
  simpl in Ha. subst new.
  pose proof (add_jobs_loop_spec _ _ _ _ _ _ Hl) as (Hu & _ & Happ & _).
  assert (U : unique_ids s') by (apply Hu, run_unique; constructor).
  unfold unique_ids in U. rewrite Hj, map_app in U.
  apply NoDup_app_remove_l in U.
  unfold get_job_count. rewrite Hj, length_app. repeat split; auto.
Qed.

Lemma add_jobs_batch_accounting_witness :
  let old := job_data_of "1" "Job 1" "Company 1" true 1 in
  let batch := [ job_data_of "1" "Job 1" "Company 1" true 1;
                 job_data_of "2" "Job 2" "Company 2" true 2;
                 job_data_of "3" "Job 3" "Company 3" false 3 ] in
  exists added s',
    add_jobs_batch 4 (run empty_store [CallAddJob 1 old]) batch
    = (Returned added, s')
    /\ get_job_count s' = 1 + List.length added
    /\ List.length added = 2.
Proof.
  intros old batch.
  destruct (add_jobs_batch 4 (run empty_store [CallAddJob 1 old]) batch)
    as [[added|e] s'] eqn:Hb; [|discriminate Hb].
  exists added, s'. split; [reflexivity|].
  pose proof (add_jobs_batch_accounting [CallAddJob 1 old] 4 batch added s' Hb)
    as (_ & Hc & _).
  split; [exact Hc|]. vm_compute in Hb. inversion Hb. reflexivity.
Defined.

Section KeyFacts.

Lemma keys_increasing_snoc ids :
  keys_increasing ids -> keys_increasing (ids ++ [next_id ids]).
Proof.
  intros [Hs Hp]. split.
  - assert (Hlt : forall x, In x ids -> x < next_id ids)
      by (intros; now apply next_id_above).
    revert Hlt. generalize (next_id ids). intros y Hlt.
    induction Hs as [|a l Hs IH Hall]; simpl.
    + repeat constructor.
    + constructor.
      * apply IH; [now inversion Hp|]. intros x Hx. apply Hlt. now right.
      * apply Forall_app. split; [exact Hall|].
        constructor; [|constructor]. apply Hlt. now left.
  - apply Forall_app. split; [exact Hp|].
    constructor; [|constructor]. unfold next_id. lia.
Qed.

Lemma keys_increasing_NoDup ids : keys_increasing ids -> NoDup ids.
Proof.
  intros [Hs _]. induction Hs as [|a l Hs IH Hall]; constructor; auto.
  intros Hin. rewrite Forall_forall in Hall. specialize (Hall a Hin). lia.
Qed.

Lemma insert_job_keys now s d job s' :
  insert_job now s d = Returned (job, s') ->
  keys_increasing (map Job.id (jobs s)) ->
  keys_increasing (map Job.id (jobs s')).
Proof.
  intros Hi Hk.
  pose proof (insert_job_returned _ _ _ _ _ Hi) as (Hj & _).
  pose proof (insert_job_columns _ _ _ _ _ Hi) as (_ & _ & _ & _ & _ & Hid).
  rewrite Hj, map_app. simpl. rewrite Hid. now apply keys_increasing_snoc.
Qed.

Lemma add_jobs_loop_keys now ds :
  forall s acc acc' s',
    add_jobs_loop now s acc ds = Returned (acc', s') ->
    keys_increasing (map Job.id (jobs s)) ->
    keys_increasing (map Job.id (jobs s')).
Proof.
  induction ds as [|d ds IH]; simpl; intros s acc acc' s' Hl Hk.
  - inversion Hl; subst. exact Hk.
  - destruct (job_exists s (get_linkedin_job_id d)); [eauto|].
    destruct (insert_job now s d) as [[job s1]|e] eqn:Hi; [|discriminate].
    eapply IH; [exact Hl|]. eapply insert_job_keys; eauto.
Qed.

Lemma exec_keys s c :
  keys_increasing (map Job.id (jobs s))
  /\ keys_increasing (map Application.id (applications s)) ->
  keys_increasing (map Job.id (jobs (exec s c)))
  /\ keys_increasing (map Application.id (applications (exec s c))).
Proof.
  intros [Hj Ha].
  pose proof (exec_applications_of_jobs_calls s c) as Happ.
  destruct c as [now d|now ds|now j st cl r n|now i st e].
  - rewrite Happ. split; [|exact Ha]. simpl. unfold add_job.
    destruct (job_exists _ _); [exact Hj|].
    destruct (insert_job now s d) as [[job s1]|ex] eqn:Hi; simpl;
      [|exact Hj].
    eapply insert_job_keys; eauto.
  - rewrite Happ. split; [|exact Ha]. simpl. unfold add_jobs_batch.
    destruct (add_jobs_loop now s [] ds) as [[added s1]|ex] eqn:Hl; simpl;
      [|exact Hj].
    eapply add_jobs_loop_keys; eauto.
  - simpl. split; [exact Hj|]. rewrite map_app. simpl.
    now apply keys_increasing_snoc.
  - simpl. unfold update_application_status.
    destruct (find _ (applications s)) as [app|] eqn:Hf; simpl;
      [|split; assumption].
    split; [exact Hj|]. rewrite replace_row_ids; [exact Ha|].
    rewrite write_status_id. now apply find_id_some in Hf as (_ & Hid & _).
Qed.

Lemma run_keys cs :
  forall s,
    keys_increasing (map Job.id (jobs s))
    /\ keys_increasing (map Application.id (applications s)) ->
    keys_increasing (map Job.id (jobs (run s cs)))
    /\ keys_increasing (map Application.id (applications (run s cs))).
Proof.
  induction cs as [|c cs IH]; simpl; intros s Hk; [exact Hk|].
  apply IH. now apply exec_keys.
Qed.

End KeyFacts.

(** X5.  After any sequence of repository calls the primary keys of both
    tables are positive, pairwise different and strictly increasing in
    insertion order: a key is never handed out twice and a later row never
    gets a smaller key. *)
Theorem primary_keys_increasing (cs : list Call) :
  let s := run empty_store cs in
  StronglySorted lt (map Job.id (jobs s))
  /\ StronglySorted lt (map Application.id (applications s))
  /\ NoDup (map Job.id (jobs s))
  /\ NoDup (map Application.id (applications s))
  /\ Forall (lt 0) (map Job.id (jobs s))
  /\ Forall (lt 0) (map Application.id (applications s)).
Proof.
  intros s.
  assert (H0 : keys_increasing (map Job.id (jobs empty_store))
               /\ keys_increasing
                    (map Application.id (applications empty_store))).
  { split; split; constructor. }
  destruct (run_keys cs empty_store H0) as [Hj Ha]. fold s in Hj, Ha.
  pose proof (keys_increasing_NoDup _ Hj).
  pose proof (keys_increasing_NoDup _ Ha).
  destruct Hj, Ha. repeat split; assumption.
Qed.

(** X6.  [update_application_status] writes one row and nothing else: the
    job table, the keys and the number of application rows are as before,
    and so is every row with another id.  The row returned keeps its job,
    cover letter, resume and notes; its status is the new one; its error
    message is the one passed when that is a non-empty string and the old
    one otherwise, so a later update without a message does not erase an
    earlier error. *)
Theorem update_touches_one_row (s : Store) (now : datetime) (i : nat)
        (st : ApplicationStatus) (e : option string) :
  let s' := snd (update_application_status now s i st e) in
  jobs s' = jobs s
  /\ map Application.id (applications s') = map Application.id (applications s)
  /\ (forall n a, nth_error (applications s) n = Some a ->
        Application.id a <> i -> nth_error (applications s') n = Some a)
  /\ (forall a', fst (update_application_status now s i st e)
                 = Returned (Some a') ->
        exists a,
          find (fun a => Nat.eqb (Application.id a) i) (applications s)
          = Some a
          /\ Application.id a' = i
          /\ Application.job_id a' = Application.job_id a
          /\ Application.cover_letter a' = Application.cover_letter a
          /\ Application.resume_used a' = Application.resume_used a
          /\ Application.notes a' = Application.notes a
          /\ Application.status a' = value st
          /\ Application.error_message a'
             = if truthy e then e else Application.error_message a).
Proof.
  unfold update_application_status.
  destruct (find _ (applications s)) as [app|] eqn:Hf; cbn [fst snd].
  - pose proof (find_id_some _ _ _ Hf) as (Hin & Hid & _).
    cbn [jobs applications]. split; [reflexivity|]. split.
    { apply replace_row_ids. now rewrite write_status_id. }
    split.
    + intros n a Hn Hne.
      destruct (replace_row_nth i (write_status now st e app) _ _ _ Hn)
        as (a' & Hn' & [->|[_ Hfa]]); [exact Hn'|].
      apply find_id_some in Hfa as (_ & Hida & _). contradiction.
    + intros a' Heq. inversion Heq; subst a'; clear Heq. exists app.
      split; [reflexivity|]. rewrite write_status_id, write_status_status.
      unfold write_status.
      destruct (truthy e), (status_in st [APPLIED; EASY_APPLY]);
        repeat split; auto.
  - repeat split; auto. intros a' Heq. discriminate Heq.
Qed.

Lemma update_touches_one_row_witness :
  exists a',
    fst (update_application_status 9 store_failed_after_success 1 EASY_APPLY
                                   None)
    = Returned (Some a')
    /\ Application.error_message a' = Some failure_message.
Proof.
  destruct (update_application_status 9 store_failed_after_success 1
                                      EASY_APPLY None)
    as [[[a'|]|ex] s'] eqn:Hu; try discriminate Hu.
  exists a'. split; [reflexivity|].
  destruct (update_touches_one_row store_failed_after_success 9 1 EASY_APPLY
                                   None) as (_ & _ & _ & Hrow).
  rewrite Hu in Hrow.
  destruct (Hrow a' eq_refl) as (a & Hf & _ & _ & _ & _ & _ & _ & He).
  rewrite He. vm_compute in Hf. inversion Hf. reflexivity.
Defined.

Section LookupFacts.

Lemma find_split {A : Type} (f : A -> bool) (l : list A) (a : A) :
  find f l = Some a ->
  exists before after,
    l = (before ++ a :: after)%list
    /\ f a = true
    /\ forall b, In b before -> f b = false.
Proof.
  induction l as [|x l IH]; simpl; [discriminate|].
  destruct (f x) eqn:Hx.
  - intros Heq. inversion Heq; subst. exists [], l. repeat split; auto.
    intros b [].
  - intros Hf. destruct (IH Hf) as (before & after & -> & Ha & Hb).
    exists (x :: before), after. repeat split; auto.
    intros b [<-|Hin]; auto.
Qed.

Lemma find_none_iff {A : Type} (f : A -> bool) (l : list A) :
  find f l = None <-> forall a, In a l -> f a = false.
Proof.
  split.
  - intros Hn a Ha. eapply find_none; eauto.
  - induction l as [|x l IH]; simpl; intros Hall; [reflexivity|].
    rewrite (Hall x) by now left. apply IH. intros a Ha. apply Hall.
    now right.
Qed.

End LookupFacts.

(** X7.  [get_application_for_job] returns the earliest application of the
    job: [None] exactly when the job has no application, otherwise a row of
    that job before which no row of the job was inserted.  So after
    [create_application] for a job that already has an application, the
    row returned is still the old one, not the new attempt. *)
Theorem get_application_for_job_earliest (s : Store) (j : nat) :
  (get_application_for_job s j = None
   <-> forall a, In a (applications s) -> Application.job_id a <> j)
  /\ (forall a, get_application_for_job s j = Some a ->
        Application.job_id a = j
        /\ exists before after,
             applications s = (before ++ a :: after)%list
             /\ forall b, In b before -> Application.job_id b <> j)
  /\ (forall now st cl r n,
        get_application_for_job
          (snd (create_application now s j st cl r n)) j
        = match get_application_for_job s j with
          | Some a => Some a
          | None => Some (fst (create_application now s j st cl r n))
          end).
Proof.
  unfold get_application_for_job. split; [|split].
  - rewrite find_none_iff. split; intros Hall a Ha.
    + apply Nat.eqb_neq. now apply Hall.
    + apply Nat.eqb_neq. now apply Hall.
  - intros a Hf. destruct (find_split _ _ _ Hf) as (before & after & Hl & Ha & Hb).
    apply Nat.eqb_eq in Ha. split; [exact Ha|].
    exists before, after. split; [exact Hl|].
    intros b Hin. apply Nat.eqb_neq. now apply Hb.
  - intros now st cl r n. simpl. rewrite find_snoc. simpl.
    now rewrite Nat.eqb_refl.
Qed.

Lemma get_application_for_job_earliest_witness :
  let s := run empty_store
               [ CallCreateApplication 1 7 FAILED None None None;
                 CallCreateApplication 2 7 EASY_APPLY None None None ] in
  exists a, get_application_for_job s 7 = Some a
            /\ Application.job_id a = 7
            /\ Application.status a = value FAILED.
Proof.
  intros s.
  destruct (get_application_for_job s 7) as [a|] eqn:Hg;
    [|discriminate Hg].
  exists a. split; [reflexivity|].
  destruct (get_application_for_job_earliest s 7) as (_ & Hsome & _).
  split; [exact (proj1 (Hsome a Hg))|].
  vm_compute in Hg. inversion Hg. reflexivity.
Defined.

Section PageFacts.

Lemma insert_desc_perm j l : Permutation (insert_desc j l) (j :: l).
Proof.
  induction l as [|y l IH]; simpl; [reflexivity|].
  destruct (Nat.leb (Job.scraped_at y) (Job.scraped_at j)); [reflexivity|].
  rewrite IH. apply perm_swap.
Qed.

Lemma order_by_perm l : Permutation (order_by_scraped_at_desc l) l.
Proof.
  induction l as [|y l IH]; simpl; [reflexivity|].
  rewrite insert_desc_perm. now constructor.
Qed.

Lemma firstn_plus {A : Type} (n m : nat) (l : list A) :
  (firstn n l ++ firstn m (skipn n l))%list = firstn (n + m) l.
Proof.
  revert l. induction n as [|n IH]; intros [|x l]; simpl;
    try reflexivity.
  - now rewrite firstn_nil.
  - now rewrite IH.
Qed.

Lemma skipn_plus {A : Type} (n m : nat) (l : list A) :
  skipn (n + m) l = skipn m (skipn n l).
Proof.
  revert l. induction n as [|n IH]; intros [|x l]; simpl; try reflexivity.
  - now rewrite skipn_nil.
  - apply IH.
Qed.

Lemma skipn_sorted (n : nat) (l : list Job.t) :
  StronglySorted newer_or_same l ->
  StronglySorted newer_or_same (skipn n l).
Proof.
  revert l. induction n as [|n IH]; intros [|y l] Hs; simpl; auto.
  inversion Hs; subst. now apply IH.
Qed.

End PageFacts.

(** X8.  [get_all_jobs] pages through the jobs, most recently scraped
    first: a page has at most [limit] jobs and is in that order;
    consecutive pages concatenate to the larger page; an offset at or
    beyond the job count gives the empty page; and one page of the size of
    the table holds every stored job exactly once. *)
Theorem get_all_jobs_pages (s : Store) (limit offset : nat) :
  List.length (get_all_jobs s limit offset) <= limit
  /\ StronglySorted newer_or_same (get_all_jobs s limit offset)
  /\ (forall more,
        (get_all_jobs s limit offset
         ++ get_all_jobs s more (offset + limit))%list
        = get_all_jobs s (limit + more) offset)
  /\ (get_job_count s <= offset -> get_all_jobs s limit offset = [])
  /\ Permutation (get_all_jobs s (get_job_count s) 0) (jobs s).
Proof.
  unfold get_all_jobs, get_job_count. repeat split.
  - apply firstn_le_length.
  - apply firstn_sorted, skipn_sorted, order_by_sorted.
  - intros more. rewrite skipn_plus. apply firstn_plus.
  - intros Hle. rewrite skipn_all2; [now rewrite firstn_nil|].
    now rewrite order_by_length.
  - simpl. rewrite firstn_all2 by (rewrite order_by_length; lia).
    apply order_by_perm.
Qed.

Lemma get_all_jobs_pages_witness :
  get_all_jobs store_two_retryable 10 2 = [].
Proof.
  apply (proj1 (proj2 (proj2 (proj2 (get_all_jobs_pages store_two_retryable
                                                        10 2))))).
  vm_compute. lia.
Defined.

(** X9.  [get_applications_by_status] returns stored rows of the status
    asked for, and only those, in insertion order; their number is the
    smaller of [limit] and the count the statistics give for that
    status. *)
Theorem get_applications_by_status_sound (s : Store)
        (st : ApplicationStatus) (limit : nat) :
  (forall a, In a (get_applications_by_status s st limit) ->
     In a (applications s) /\ Application.status a = value st)
  /\ List.length (get_applications_by_status s st limit)
     = Nat.min limit (count_status s st)
  /\ (count_status s st <= limit ->
      forall a, In a (applications s) -> Application.status a = value st ->
        In a (get_applications_by_status s st limit)).
Proof.
  unfold get_applications_by_status, count_status. repeat split.
  - apply firstn_In_list in H. now apply filter_In in H.
  - apply firstn_In_list in H. apply filter_In in H as [_ H].
    now apply String.eqb_eq.
  - apply length_firstn.
  - intros Hle a Hin Hst. rewrite firstn_all2 by exact Hle.
    apply filter_In. split; [exact Hin|]. now apply String.eqb_eq.
Qed.

Lemma get_applications_by_status_sound_witness :
  let a := Application.mk 1 7 "failed" (Some 2) None None None
                          (Some failure_message) in
  In a (get_applications_by_status store_failed_after_success FAILED 5)
  /\ In a (applications store_failed_after_success).
Proof.
  intros a.
  assert (Hin : In a (get_applications_by_status store_failed_after_success
                                                 FAILED 5))
    by (left; reflexivity).
  split; [exact Hin|].
  exact (proj1 (proj1 (get_applications_by_status_sound
                         store_failed_after_success FAILED 5) a Hin)).
Defined.

Section StatusFacts.

Lemma replace_row_In_weak i new rows a' :
  In a' (replace_row i new rows) -> a' = new \/ In a' rows.
Proof.
  induction rows as [|a rows IH]; simpl; [tauto|].
  destruct (Nat.eqb (Application.id a) i); simpl; intuition.
Qed.

Lemma exec_valid_status s c :
  Forall valid_status (applications s) ->
  Forall valid_status (applications (exec s c)).
Proof.
  intros Hv. pose proof (exec_applications_of_jobs_calls s c) as Happ.
  destruct c as [now d|now ds|now j st cl r n|now i st e];
    try (rewrite Happ; exact Hv).
  - simpl. apply Forall_app. split; [exact Hv|].
    constructor; [|constructor]. exists st. reflexivity.
  - simpl. unfold update_application_status.
    destruct (find _ (applications s)) as [app|]; simpl; [|exact Hv].
    apply Forall_forall. intros a Ha.
    apply replace_row_In_weak in Ha as [->|Ha].
    + exists st. apply write_status_status.
    + rewrite Forall_forall in Hv. now apply Hv.
Qed.

Lemma run_valid_status cs :
  forall s, Forall valid_status (applications s) ->
            Forall valid_status (applications (run s cs)).
Proof.
  induction cs as [|c cs IH]; simpl; intros s Hv; [exact Hv|].
  apply IH. now apply exec_valid_status.
Qed.

Lemma counted_valid v :
  (exists st, v = value st) ->
  counted v + (if String.eqb v (value EXTERNAL) then 1 else 0) = 1.
Proof. intros [st ->]. destruct st; reflexivity. Qed.

Lemma counted_sum_exact js rows :
  Forall valid_status rows ->
  counted_sum (mkStore js rows) + count_status (mkStore js rows) EXTERNAL
  = List.length rows.
Proof.
  induction 1 as [|a rows Ha Hv IH]; [reflexivity|].
  rewrite counted_sum_cons, count_status_cons. simpl List.length.
  pose proof (counted_valid _ Ha). lia.
Qed.

End StatusFacts.

(** X10.  After any sequence of repository calls every application row
    holds one of the six status values, so the statistics add up:
    [total_applications] is the sum of the five per-status counts returned
    plus the number of [external] rows (the rows
    [get_applications_by_status] gives for [external]), and [total_jobs] is
    [get_job_count]. *)
Theorem stats_add_up (cs : list Call) :
  let s := run empty_store cs in
  let d := get_application_stats s in
  Forall valid_status (applications s)
  /\ dict_get d "total_jobs" = Some (get_job_count s)
  /\ dict_get d "total_applications"
     = Some (per_status_sum d
             + List.length
                 (get_applications_by_status
                    s EXTERNAL (List.length (applications s)))).
Proof.
  intros s d.
  assert (Hv : Forall valid_status (applications s))
    by (apply run_valid_status; constructor).
  split; [exact Hv|]. split; [reflexivity|].
  pose proof (proj1 (proj2 (get_applications_by_status_sound
                              s EXTERNAL (List.length (applications s)))))
    as Hlen.
  rewrite Hlen.
  assert (Hc : count_status s EXTERNAL <= List.length (applications s))
    by apply filter_length_le.
  rewrite Nat.min_r by exact Hc.
  destruct s as [js rows]. pose proof (counted_sum_exact js rows Hv) as Hs.
  unfold counted_sum in Hs. unfold d, per_status_sum. simpl in *.
  f_equal. lia.
Qed.

(** * Further properties of the batch runner *)

Section MoreRunnerFacts.
Context {World Elem : Type} (page : Collaborator World Elem).
Context {F : Type} `{Score F}.
Variable settings : Settings.
Variable resume_selector : option (Profiles F).
Variable resumes_dir_join : string -> string.
Variable cover_letter_generator : bool.
Variable path_str : string -> string.
Variable clock : World -> datetime.

Local Abbreviation apply_one :=
  (apply_to_job page settings resume_selector resumes_dir_join
                cover_letter_generator path_str).
Local Abbreviation process :=
  (process_job page settings resume_selector resumes_dir_join
               cover_letter_generator path_str clock).

(** Whenever [apply_to_job] returns [True], [process_job] leaves a new
    application row for the job with status [easy_apply], submitted at the
    clock reading after the attempt. *)
Lemma process_job_success job (r : Runner World) w' :
  apply_one job (world r) = (Returned true, w') ->
  exists resume_to_use,
    let row := Application.mk
                 (next_id (map Application.id (applications (repository r))))
                 (Job.id job) (value EASY_APPLY) (Some (clock w')) None
                 (Some resume_to_use) None None in
    repository (snd (process job r))
    = mkStore (jobs (repository r)) (applications (repository r) ++ [row])
    /\ stats (snd (process job r))
       = mkStats (attempted (stats r) + 1) (successful (stats r) + 1)
                 (skipped (stats r)) (failed (stats r)).
Proof.
  intros Happ.
  set (resume :=
         match resume_selector with
         | Some profiles =>
             if truthy (selected_resume_for resumes_dir_join profiles job)
             then or_empty (selected_resume_for resumes_dir_join profiles job)
             else resume_path settings
         | None => resume_path settings
         end).
  exists resume. cbv zeta.
  set (nid := next_id (map Application.id (applications (repository r)))).
  set (new := Application.mk nid (Job.id job) (value PENDING) None None
                             (Some resume) None None).
  assert (Hnid : Application.id new
                 = next_id (map Application.id (applications (repository r))))
    by reflexivity.
  assert (Hrun : exists o w'',
             process job r
             = (o, mkRunner
                     (mkStore (jobs (repository r))
                        (applications (repository r)
                           ++ [Application.mk nid (Job.id job)
                                 (value EASY_APPLY) (Some (clock w')) None
                                 (Some resume) None None]))
                     (mkStats (attempted (stats r) + 1)
                              (successful (stats r) + 1)
                              (skipped (stats r)) (failed (stats r)))
                     w'')).
  { unfold process_job. fold resume.
    unfold bind at 1. unfold count_attempted at 1. cbv beta iota.
    unfold bind at 1. unfold repo_create_application at 1.
    unfold create_application. cbv beta iota zeta.
    cbn [world repository stats status_in existsb ApplicationStatus_eqb orb].
    fold nid. fold new.
    unfold bind at 1. unfold on_world at 1. cbn [world repository stats].
    rewrite Happ. cbv beta iota.
    unfold bind at 1. unfold bind at 1. unfold count_successful at 1.
    cbv beta iota. cbn [world repository stats].
    unfold bind at 1. unfold repo_update_application_status at 1.
    unfold update_application_status.
    cbn [world repository stats applications jobs attempted successful
         skipped failed].
    rewrite (find_fresh_row _ new Hnid).
    rewrite (replace_fresh_row _ new _ Hnid).
    cbv beta iota. unfold ret at 1. cbv beta iota.
    unfold on_world. cbn [world repository stats].
    destruct (sleep page 5 w') as [o w''].
    exists (match o with Returned _ => o | Raised e => Raised e end), w''.
    destruct o; reflexivity. }
  destruct Hrun as (o & w'' & ->). split; reflexivity.
Qed.











End MoreRunnerFacts.

Section EligibilityFacts.

Lemma applied_job_ids_snoc js rows row :
  applied_job_ids (mkStore js (rows ++ [row]))
  = (applied_job_ids (mkStore js rows)
     ++ (if status_column_in row [APPLIED; EASY_APPLY; SKIPPED]
         then [Application.job_id row] else []))%list.
Proof.
  unfold applied_job_ids. cbn [applications].
  rewrite filter_app, map_app. cbn [filter].
  destruct (status_column_in row [APPLIED; EASY_APPLY; SKIPPED]); reflexivity.
Qed.

Lemma failed_row_keeps_eligibility s row limit :
  Application.status row = value FAILED ->
  get_unapplied_easy_apply_jobs
    (mkStore (jobs s) (applications s ++ [row])) limit
  = get_unapplied_easy_apply_jobs s limit.
Proof.
  intros Hst. unfold get_unapplied_easy_apply_jobs. f_equal. f_equal.
  simpl. apply filter_ext. intros j. unfold unapplied_easy_apply.
  rewrite applied_job_ids_snoc.
  unfold status_column_in at 1. rewrite Hst. simpl. rewrite app_nil_r.
  destruct s; reflexivity.
Qed.

Lemma success_row_blocks s row limit j :
  Application.status row = value EASY_APPLY ->
  In j (get_unapplied_easy_apply_jobs
          (mkStore (jobs s) (applications s ++ [row])) limit) ->
  Job.id j <> Application.job_id row.
Proof.
  intros Hst Hin. unfold get_unapplied_easy_apply_jobs in Hin.
  apply firstn_In_list, order_by_In, filter_In in Hin as [_ Hw].
  unfold unapplied_easy_apply in Hw. rewrite applied_job_ids_snoc in Hw.
  unfold status_column_in at 1 in Hw. rewrite Hst in Hw. simpl in Hw.
  apply andb_true_iff in Hw as [_ Hw]. apply negb_true_iff in Hw.
  rewrite existsb_app in Hw. apply orb_false_iff in Hw as [_ Hw].
  simpl in Hw. rewrite orb_false_r in Hw. now apply Nat.eqb_neq.
Qed.

End EligibilityFacts.

(** X11.  What one attempt does to the work list.  If [apply_to_job]
    returns [True], [process_job] leaves a new row for the listing with
    status [easy_apply], submitted at the clock reading after the attempt,
    counts a success, and no listing with that id is returned by
    [get_unapplied_easy_apply_jobs] any more.  If it returns [False], the
    result of [get_unapplied_easy_apply_jobs] is the same as before the
    attempt, for every limit: the listing stays available for a retry. *)
Theorem process_job_eligibility
        {World Elem : Type} (page : Collaborator World Elem)
        {F : Type} `{Score F}
        (settings : Settings) (resume_selector : option (Profiles F))
        (resumes_dir_join : string -> string) (cover_letter_generator : bool)
        (path_str : string -> string) (clock : World -> datetime)
        (job : Job.t) (r : Runner World) :
  let r' := snd (process_job page settings resume_selector resumes_dir_join
                             cover_letter_generator path_str clock job r) in
  (forall w',
      apply_to_job page settings resume_selector resumes_dir_join
                   cover_letter_generator path_str job (world r)
      = (Returned true, w') ->
      (exists row,
          applications (repository r')
          = (applications (repository r) ++ [row])%list
          /\ Application.job_id row = Job.id job
          /\ Application.status row = value EASY_APPLY
          /\ Application.applied_at row = Some (clock w')
          /\ Application.error_message row = None)
      /\ successful (stats r') = successful (stats r) + 1
      /\ failed (stats r') = failed (stats r)
      /\ forall limit j,
           In j (get_unapplied_easy_apply_jobs (repository r') limit) ->
           Job.id j <> Job.id job)
  /\ (forall w',
        apply_to_job page settings resume_selector resumes_dir_join
                     cover_letter_generator path_str job (world r)
        = (Returned false, w') ->
        forall limit,
          get_unapplied_easy_apply_jobs (repository r') limit
          = get_unapplied_easy_apply_jobs (repository r) limit).
Proof.
  intros r'. split; intros w' Happ.
  - destruct (process_job_success page settings resume_selector
                resumes_dir_join cover_letter_generator path_str clock job r
                w' Happ) as (resume & Hrepo & Hstats).
    fold r' in Hrepo, Hstats. rewrite Hrepo, Hstats.
    split; [eexists; simpl; repeat split|].
    split; [reflexivity|]. split; [reflexivity|].
    intros limit j Hin.
    apply (success_row_blocks (repository r)) in Hin; [exact Hin|reflexivity].
  - destruct (process_job_failure page settings resume_selector
                resumes_dir_join cover_letter_generator path_str clock job r
                w' Happ) as (resume & Hrepo & Hstats).
    fold r' in Hrepo. rewrite Hrepo. intros limit.
    now apply failed_row_keeps_eligibility.
Qed.

Lemma process_job_eligibility_witness :
  get_unapplied_easy_apply_jobs
    (repository
       (snd (process_job quiet_page default_settings (Some two_profiles)
                         resumes_join false (fun p => p) (fun w => w)
                         job_42 runner_with_job_42))) 10
  = [job_42].
Proof.
  destruct (process_job_eligibility quiet_page default_settings
              (Some two_profiles) resumes_join false (fun p => p)
              (fun w => w) job_42 runner_with_job_42) as (_ & Hfail).
  rewrite (Hfail 1 eq_refl 10). reflexivity.
Defined.



(** * Further properties of the resume selector *)

Section MoreSelectorFacts.
Context {F : Type} `{Score F}.

Lemma max_from_In (best : string * ScoreInfo F) items :
  In (max_from best items) (best :: items).
Proof.
  revert best. induction items as [|x items IH]; intros best; simpl.
  - now left.
  - destruct (gt (score (snd x)) (score (snd best))).
    + right. apply IH.
    + destruct (IH best) as [E|Hin]; [now left|right; now right].
Qed.

Lemma score_all_In text (profiles : Profiles F) name info :
  In (name, info) (score_all text profiles) ->
  exists p, In (name, p) profiles
            /\ info = score_profile text p
            /\ score_file info = file p.
Proof.
  unfold score_all. intros Hin.
  apply in_map_iff in Hin as ([n p] & Heq & Hin). inversion Heq; subst.
  exists p. repeat split; auto.
  unfold score_profile. destruct (match_keywords text (keywords p)).
  reflexivity.
Qed.

Lemma lower_app (a b : string) : lower (a ++ b) = lower a ++ lower b.
Proof. induction a as [|c a IH]; simpl; [reflexivity|now rewrite IH]. Qed.

Lemma match_keywords_filter text kws :
  match_keywords text kws
  = (List.length (filter (fun k => contains (lower k) text) kws),
     filter (fun k => contains (lower k) text) kws).
Proof.
  induction kws as [|k kws IH]; simpl; [reflexivity|].
  rewrite IH. destruct (contains (lower k) text); reflexivity.
Qed.

End MoreSelectorFacts.

(** X13.  [select_resume] returns [None] exactly when no profile is
    loaded; otherwise it returns the path of one of the loaded profiles,
    never anything else. *)
Theorem select_resume_in_profiles
        {F : Type} `{Score F} (resumes_dir_join : string -> string)
        (profiles : Profiles F) (job_title : string)
        (job_description company : option string) :
  (select_resume resumes_dir_join profiles job_title job_description company
   = None <-> profiles = [])
  /\ (forall path,
         select_resume resumes_dir_join profiles job_title job_description
                       company = Some path ->
         exists name p,
           In (name, p) profiles /\ path = resumes_dir_join (file p)).
Proof.
  unfold select_resume.
  destruct profiles as [|[n0 p0] [|q rest]].
  - split; [tauto|discriminate].
  - split; [split; discriminate|].
    intros path Heq. inversion Heq. exists n0, p0. split; [now left|auto].
  - set (text := search_text_of job_title job_description company).
    set (profiles := (n0, p0) :: q :: rest).
    destruct (negb (existsb _ (score_all text profiles))).
    + split; [split; discriminate|].
      intros path Heq. inversion Heq. exists n0, p0. split; [now left|auto].
    + destruct (score_all text profiles) as [|first others] eqn:Hsc;
        [discriminate Hsc|].
      pose proof (max_from_In first others) as Hin.
      destruct (max_from first others) as [name info].
      split; [split; discriminate|].
      intros path Heq. inversion Heq. rewrite <- Hsc in Hin.
      apply score_all_In in Hin as (p & Hp & _ & Hfile).
      exists name, p. split; [exact Hp|]. now rewrite Hfile.
Qed.

Lemma select_resume_in_profiles_witness :
  exists name p,
    In (name, p) two_profiles
    /\ "resumes/Backend.pdf" = resumes_join (file p).
Proof.
  apply (proj2 (select_resume_in_profiles resumes_join two_profiles
                  "Backend Engineer" (Some "python django rest api") None)).
  vm_compute. reflexivity.
Defined.

(** X14.  The text of the job is matched without regard to letter case:
    two jobs whose title, description and company agree after
    lower-casing get the same resume. *)
Theorem select_resume_ignores_case
        {F : Type} `{Score F} (resumes_dir_join : string -> string)
        (profiles : Profiles F) (t t' : string) (d d' c c' : option string) :
  lower t = lower t' ->
  lower (or_empty d) = lower (or_empty d') ->
  lower (or_empty c) = lower (or_empty c') ->
  select_resume resumes_dir_join profiles t d c
  = select_resume resumes_dir_join profiles t' d' c'.
Proof.
  intros Ht Hd Hc.
  assert (Hs : search_text_of t d c = search_text_of t' d' c').
  { unfold search_text_of. rewrite !lower_app. now rewrite Ht, Hd, Hc. }
  unfold select_resume. now rewrite Hs.
Qed.

Lemma select_resume_ignores_case_witness :
  select_resume resumes_join two_profiles "FIRMWARE Engineer"
                (Some "RTOS on STM32") None
  = select_resume resumes_join two_profiles "firmware engineer"
                  (Some "rtos on stm32") (Some EmptyString).
Proof.
  apply select_resume_ignores_case; reflexivity.
Defined.

(** X15.  The keyword count of a profile is the number of entries of its
    keyword list that occur in the text, duplicates counted: it is at most
    the length of the list, the matched keywords are those entries in list
    order, and the count over a concatenation of two lists is the sum of
    the counts, so a keyword listed twice weighs twice. *)
Theorem match_keywords_counts (text : string) (kws kws' : list string) :
  fst (match_keywords text kws) = List.length (snd (match_keywords text kws))
  /\ snd (match_keywords text kws)
     = filter (fun k => contains (lower k) text) kws
  /\ fst (match_keywords text kws) <= List.length kws
  /\ fst (match_keywords text (kws ++ kws'))
     = fst (match_keywords text kws) + fst (match_keywords text kws').
Proof.
  rewrite !match_keywords_filter. simpl. repeat split.
  - apply filter_length_le.
  - now rewrite filter_app, length_app.
Qed.

Section OrderedScores.
Context {F : Type} `{Score F}.

(** [>] on scores is a strict weak order, as it is on the floats that are
    not NaN. *)
Hypothesis gt_trans :
  forall a b c : F, gt a b = true -> gt b c = true -> gt a c = true.
Hypothesis gt_negtrans :
  forall a b c : F, gt a b = false -> gt b c = false -> gt a c = false.

(** [max] with a key returns the first of the greatest items. *)
Lemma max_from_first_greatest (items : list (string * ScoreInfo F)) :
  forall best,
    exists pre post,
      best :: items = (pre ++ max_from best items :: post)%list
      /\ (forall x, In x pre ->
            gt (score (snd (max_from best items))) (score (snd x)) = true)
      /\ (forall x, In x post ->
            gt (score (snd x)) (score (snd (max_from best items))) = false).
Proof.
  induction items as [|x items IH]; intros best; cbn [max_from].
  - exists [], []. repeat split; intros y [].
  - destruct (gt (score (snd x)) (score (snd best))) eqn:Hg.
    + destruct (IH x) as (pre & post & Heq & Hpre & Hpost).
      exists (best :: pre), post.
      split; [change ((best :: pre) ++ max_from x items :: post)%list
                with (best :: (pre ++ max_from x items :: post))%list;
              now rewrite <- Heq|].
      split; [|exact Hpost].
      intros y [<-|Hy]; [|now apply Hpre].
      destruct pre as [|z pre]; simpl in Heq; injection Heq as Hx Hrest.
      * now rewrite <- Hx.
      * subst z. eapply gt_trans; [|exact Hg]. apply Hpre. now left.
    + destruct (IH best) as (pre & post & Heq & Hpre & Hpost).
      destruct pre as [|z pre]; simpl in Heq; injection Heq as Hb Hrest.
      * exists [], (x :: items). rewrite <- Hb. repeat split.
        -- intros y [].
        -- intros y [<-|Hy]; [exact Hg|].
           rewrite Hb. apply Hpost. rewrite <- Hrest. exact Hy.
      * subst z.
        exists (best :: x :: pre), post.
        split; [change ((best :: x :: pre) ++ max_from best items :: post)%list
                  with (best :: x :: (pre ++ max_from best items :: post))%list;
                now rewrite <- Hrest|].
        split; [|exact Hpost].
        intros y [<-|[<-|Hy]].
        -- apply Hpre. now left.
        -- destruct (gt (score (snd (max_from best items))) (score (snd x)))
             eqn:E; [reflexivity|].
           pose proof (gt_negtrans _ _ _ E Hg) as Hcontra.
           rewrite (Hpre best (or_introl eq_refl)) in Hcontra.
           discriminate Hcontra.
        -- apply Hpre. now right.
Qed.

Lemma select_resume_first_greatest
      (resumes_dir_join : string -> string) (profiles : Profiles F)
      (job_title : string) (job_description company : option string) :
  2 <= List.length profiles ->
  (exists name p,
      In (name, p) profiles
      /\ gt_zero (score_of job_title job_description company p) = true) ->
  exists before name p after,
    profiles = (before ++ (name, p) :: after)%list
    /\ select_resume resumes_dir_join profiles job_title job_description
                     company
       = Some (resumes_dir_join (file p))
    /\ (forall n' p', In (n', p') before ->
          gt (score_of job_title job_description company p)
             (score_of job_title job_description company p') = true)
    /\ (forall n' p', In (n', p') after ->
          gt (score_of job_title job_description company p')
             (score_of job_title job_description company p) = false).
Proof.
  intros Hlen (pn & pp & Hpin & Hpos).
  set (text := search_text_of job_title job_description company).
  assert (Hex : existsb (fun s => gt_zero (score (snd s)))
                        (score_all text profiles) = true).
  { apply existsb_exists. exists (pn, score_profile text pp). split.
    - unfold score_all. apply in_map_iff. exists (pn, pp). now split.
    - exact Hpos. }
  unfold select_resume. fold text.
  destruct profiles as [|[n0 p0] [|q rest]]; simpl in Hlen; try lia.
  set (profiles := (n0, p0) :: q :: rest) in *.
  rewrite Hex. simpl negb. cbv iota.
  destruct (score_all text profiles) as [|first others] eqn:Hsc;
    [discriminate Hsc|].
  destruct (max_from_first_greatest others first)
    as (pre & post & Heq & Hpre & Hpost).
  rewrite <- Hsc in Heq. unfold score_all in Heq.
  apply map_eq_app in Heq as (before & tl & Hprof & Hbefore & Htl).
  apply map_eq_cons in Htl as ([name p] & after & Htl & Hbest & Hafter).
  exists before, name, p, after.
  split; [now rewrite Hprof, Htl|].
  rewrite <- Hbest. split.
  { unfold score_profile.
    destruct (match_keywords text (keywords p)). reflexivity. }
  rewrite <- Hbest in Hpre, Hpost. split.
  - intros n' p' Hin. apply (Hpre (n', score_profile text p')).
    rewrite <- Hbefore. apply in_map_iff. exists (n', p'). now split.
  - intros n' p' Hin. apply (Hpost (n', score_profile text p')).
    rewrite <- Hafter. apply in_map_iff. exists (n', p'). now split.
Qed.

End OrderedScores.

Section RationalScores.

Lemma gt_Q_lt (a b : Q) : gt a b = true <-> (b < a)%Q.
Proof.
  simpl. rewrite negb_true_iff. split.
  - intros Hn. apply Qnot_le_lt. intros Hle.
    apply Qle_bool_iff in Hle. congruence.
  - intros Hlt. destruct (Qle_bool a b) eqn:E; [|reflexivity].
    apply Qle_bool_iff in E. exfalso. exact (Qlt_not_le _ _ Hlt E).
Qed.

Lemma gt_Q_le (a b : Q) : gt a b = false <-> (a <= b)%Q.
Proof.
  simpl. rewrite negb_false_iff. apply Qle_bool_iff.
Qed.

Lemma gt_Q_trans (a b c : Q) :
  gt a b = true -> gt b c = true -> gt a c = true.
Proof.
  rewrite !gt_Q_lt. intros Hab Hbc. eapply Qlt_trans; eauto.
Qed.

Lemma gt_Q_negtrans (a b c : Q) :
  gt a b = false -> gt b c = false -> gt a c = false.
Proof.
  rewrite !gt_Q_le. intros Hab Hbc. eapply Qle_trans; eauto.
Qed.

End RationalScores.

(** X16.  Whenever [>] on scores is a strict weak order (it is on floats
    other than NaN, and on the rationals), with two or more profiles and at
    least one score above zero [select_resume] returns the profile with the
    greatest score, and among equal greatest scores the one loaded first:
    the chosen profile scores strictly more than every profile loaded
    before it, and no profile loaded after it scores more. *)
Theorem select_resume_picks_best
        {F : Type} `{Score F}
        (resumes_dir_join : string -> string) (profiles : Profiles F)
        (job_title : string) (job_description company : option string) :
  (forall a b c : F, gt a b = true -> gt b c = true -> gt a c = true) ->
  (forall a b c : F, gt a b = false -> gt b c = false -> gt a c = false) ->
  2 <= List.length profiles ->
  (exists name p,
      In (name, p) profiles
      /\ gt_zero (score_of job_title job_description company p) = true) ->
  exists before name p after,
    profiles = (before ++ (name, p) :: after)%list
    /\ select_resume resumes_dir_join profiles job_title job_description
                     company
       = Some (resumes_dir_join (file p))
    /\ (forall n' p', In (n', p') before ->
          gt (score_of job_title job_description company p)
             (score_of job_title job_description company p') = true)
    /\ (forall n' p', In (n', p') after ->
          gt (score_of job_title job_description company p')
             (score_of job_title job_description company p) = false).
Proof.
  intros Htrans Hneg.
  exact (select_resume_first_greatest Htrans Hneg resumes_dir_join profiles
           job_title job_description company).
Qed.

Lemma select_resume_picks_best_witness :
  exists p : Profile Q,
    select_resume resumes_join two_profiles "Backend Engineer"
                  (Some "python django rest api") None
    = Some (resumes_join (file p)).
Proof.
  destruct (select_resume_picks_best resumes_join two_profiles
              "Backend Engineer" (Some "python django rest api") None
              gt_Q_trans gt_Q_negtrans)
    as (before & name & p & after & Hprof & Hsel & _ & _).
  - simpl. lia.
  - exists "backend". eexists. split; [left; reflexivity|].
    vm_compute. reflexivity.
  - exists p. exact Hsel.
Defined.

Section DictFacts.
Context {V : Type}.

Lemma dict_get_set_same (d : list (string * V)) k v :
  dict_get (dict_set d k v) k = Some v.
Proof.
  induction d as [|[k' v'] d IH]; simpl.
  - now rewrite String.eqb_refl.
  - destruct (String.eqb_spec k' k) as [E|E]; simpl.
    + now rewrite String.eqb_refl.
    + destruct (String.eqb_spec k' k); [contradiction|exact IH].
Qed.

Lemma dict_get_set_other (d : list (string * V)) k v k0 :
  k0 <> k -> dict_get (dict_set d k v) k0 = dict_get d k0.
Proof.
  intros Hne. induction d as [|[k' v'] d IH]; simpl.
  - destruct (String.eqb_spec k k0); [congruence|reflexivity].
  - destruct (String.eqb_spec k' k) as [E|E]; simpl.
    + subst k'. destruct (String.eqb_spec k k0); [congruence|reflexivity].
    + destruct (String.eqb_spec k' k0); [reflexivity|exact IH].
Qed.

Lemma dict_set_keys (d : list (string * V)) k v :
  map fst (dict_set d k v)
  = if existsb (String.eqb k) (map fst d) then map fst d
    else (map fst d ++ [k])%list.
Proof.
  induction d as [|[k' v'] d IH]; simpl; [reflexivity|].
  rewrite (String.eqb_sym k k').
  destruct (String.eqb_spec k' k) as [E|E]; simpl.
  - now subst.
  - rewrite IH. destruct (existsb (String.eqb k) (map fst d)); reflexivity.
Qed.

End DictFacts.

Section LoadFacts.
Context {F : Type} `{Score F}.

Lemma select_resume_some join (profiles : Profiles F) t d c :
  profiles <> [] -> select_resume join profiles t d c <> None.
Proof.
  intros Hne. unfold select_resume.
  destruct profiles as [|[n0 p0] [|q rest]]; [contradiction|discriminate|].
  destruct (negb _); [discriminate|].
  destruct (score_all _ _) as [|first others] eqn:Hsc; [discriminate Hsc|].
  destruct (max_from first others). discriminate.
Qed.

End LoadFacts.

(** X17.  Which resumes are on disk decides what [select_resume] can
    return after [_load_resume_profiles]: the loaded profiles are the
    built-in ones whose file exists, [backend] before [embedded]; with
    neither file every job gets [None]; with only one of them every job
    gets that resume, whatever its text. *)
Theorem load_then_select
        {F : Type} `{Score F} (one : F)
        (resumes_dir_join : string -> string) (path_exists : string -> bool) :
  let profiles := _load_resume_profiles one resumes_dir_join path_exists in
  let b := path_exists (resumes_dir_join "Backend.pdf") in
  let e := path_exists (resumes_dir_join "embedded.pdf") in
  list_available_resumes profiles
  = ((if b then ["backend"] else []) ++ (if e then ["embedded"] else []))%list
  /\ (forall t d c,
        select_resume resumes_dir_join profiles t d c = None
        <-> b = false /\ e = false)
  /\ (b = true -> e = false ->
      forall t d c, select_resume resumes_dir_join profiles t d c
                    = Some (resumes_dir_join "Backend.pdf"))
  /\ (b = false -> e = true ->
      forall t d c, select_resume resumes_dir_join profiles t d c
                    = Some (resumes_dir_join "embedded.pdf")).
Proof.
  intros profiles b e.
  assert (Hp : profiles
               = ((if b then [("backend", snd (nth 0 (builtin_profiles one)
                                                   (EmptyString,
                                                    mkProfile EmptyString []
                                                              one)))]
                   else [])
                  ++ (if e then [("embedded",
                                  snd (nth 1 (builtin_profiles one)
                                           (EmptyString,
                                            mkProfile EmptyString [] one)))]
                      else []))%list).
  { unfold profiles, _load_resume_profiles, builtin_profiles.
    cbn [load_profiles file]. fold b. fold e.
    destruct b, e; reflexivity. }
  split; [rewrite Hp; destruct b, e; reflexivity|].
  split; [|split].
  - intros t d c. split.
    + intros Hnone. destruct b eqn:Hb, e eqn:He; auto; exfalso;
        revert Hnone; apply select_resume_some; rewrite Hp; discriminate.
    + intros [Hb He]. rewrite Hp, Hb, He. reflexivity.
  - intros Hb He t d c. rewrite Hp, Hb, He. reflexivity.
  - intros Hb He t d c. rewrite Hp, Hb, He. reflexivity.
Qed.

Lemma load_then_select_witness :
  select_resume resumes_join
                (_load_resume_profiles
                   1%Q resumes_join
                   (fun p => String.eqb p "resumes/embedded.pdf"))
                "Backend Engineer" (Some "python django rest api") None
  = Some "resumes/embedded.pdf".
Proof.
  apply (proj2 (proj2 (proj2 (load_then_select
                                1%Q resumes_join
                                (fun p => String.eqb p "resumes/embedded.pdf")))));
    reflexivity.
Defined.

(** X18.  [add_custom_profile] registers a profile only when its file
    exists: otherwise the profiles are unchanged.  When it does,
    [get_resume_by_name] finds the new file under the name, every other
    name resolves as before, the keywords are stored lower-cased, and the
    names keep their order: a new name goes last, a name already present
    keeps its place, so replacing the first profile replaces the default
    resume. *)
Theorem add_custom_profile_lookup
        {F : Type} (resumes_dir_join : string -> string)
        (path_exists : string -> bool) (profiles : Profiles F)
        (name filename : string) (kws : list string) (w : F) :
  let profiles' := add_custom_profile resumes_dir_join path_exists profiles
                                      name filename kws w in
  (path_exists (resumes_dir_join filename) = false -> profiles' = profiles)
  /\ (path_exists (resumes_dir_join filename) = true ->
      get_resume_by_name resumes_dir_join profiles' name
      = Some (resumes_dir_join filename)
      /\ dict_get profiles' name = Some (mkProfile filename (map lower kws) w)
      /\ (forall other, other <> name ->
            get_resume_by_name resumes_dir_join profiles' other
            = get_resume_by_name resumes_dir_join profiles other)
      /\ list_available_resumes profiles'
         = if existsb (String.eqb name) (list_available_resumes profiles)
           then list_available_resumes profiles
           else (list_available_resumes profiles ++ [name])%list).
Proof.
  intros profiles'. unfold profiles', add_custom_profile. split.
  - intros ->. reflexivity.
  - intros ->. unfold get_resume_by_name, list_available_resumes.
    rewrite dict_get_set_same. repeat split.
    + intros other Hne. now rewrite dict_get_set_other.
    + apply dict_set_keys.
Qed.

Lemma add_custom_profile_lookup_witness :
  get_resume_by_name
    resumes_join
    (add_custom_profile resumes_join (fun _ => true) two_profiles
                        "backend" "Fullstack.pdf" ["React"; "Python"] 2%Q)
    "backend"
  = Some "resumes/Fullstack.pdf".
Proof.
  apply (proj2 (add_custom_profile_lookup resumes_join (fun _ => true)
                  two_profiles "backend" "Fullstack.pdf" ["React"; "Python"]
                  2%Q)).
  reflexivity.
Defined.

(** * Further properties of the form filling *)

Section FillFacts.

Lemma for_each_try_except_returns {St A : Type} (xs : list A)
      (body : A -> M St unit) :
  forall w,
    exists w',
      for_each xs (fun x => try_except (body x) (fun _ => ret tt)) w
      = (Returned tt, w').
Proof.
  induction xs as [|x xs IH]; intros w; simpl.
  - unfold ret. eauto.
  - unfold bind, try_except.
    destruct (body x w) as [[[]|e] w1]; unfold ret; apply IH.
Qed.

End FillFacts.

(** X19.  An exception while filling one required field or answering one
    radio group never aborts [_fill_application_step]: on a step without
    resume, cover-letter and phone inputs, whose element lists can be
    queried, the function returns normally whatever the field-level
    primitives (attribute reads, value reads, fills, clicks) do, raising
    included. *)
Theorem fill_step_swallows_field_errors
        {World Elem : Type} (page : Collaborator World Elem)
        {F : Type} `{Score F}
        (settings : Settings) (resume_selector : option (Profiles F))
        (resumes_dir_join : string -> string) (cover_letter_generator : bool)
        (path_str : string -> string) :
  (forall sel w,
      In sel [sel_resume_input; sel_cover_letter_input; sel_phone_input] ->
      exists w', query_selector page sel w = (Returned None, w')) ->
  (forall sel w,
      exists l w', query_selector_all page sel w = (Returned l, w')) ->
  forall job w,
    exists w',
      _fill_application_step page settings resume_selector resumes_dir_join
                             cover_letter_generator path_str job w
      = (Returned tt, w').
Proof.
  intros Hq Hall job w. unfold _fill_application_step.
  unfold bind at 1. destruct (Hq sel_resume_input w) as [w1 ->];
    [simpl; tauto|]. unfold bind at 1. unfold ret at 1.
  unfold bind at 1. destruct (Hq sel_cover_letter_input w1) as [w2 ->];
    [simpl; tauto|]. unfold bind at 1. unfold ret at 1.
  unfold bind at 1. destruct (Hq sel_phone_input w2) as [w3 ->];
    [simpl; tauto|]. unfold bind at 1. unfold ret at 1.
  unfold bind at 1.
  destruct (Hall sel_required_fields w3) as (fields & w4 & ->).
  unfold bind at 1.
  destruct (for_each_try_except_returns fields
              (fill_required_field page settings) w4) as [w5 ->].
  unfold bind at 1.
  destruct (Hall sel_radio_groups w5) as (groups & w6 & ->).
  apply for_each_try_except_returns.
Qed.

Lemma fill_step_swallows_field_errors_witness :
  exists w',
    _fill_application_step failing_fields_page default_settings
                           (Some two_profiles) resumes_join false
                           (fun p => p) job_42 0
    = (Returned tt, w').
Proof.
  apply (fill_step_swallows_field_errors failing_fields_page default_settings
           (Some two_profiles) resumes_join false (fun p => p)).
  - intros sel w _. exists w. reflexivity.
  - intros sel w. exists [tt; tt], w. reflexivity.
Defined.

(** * Further properties of the keyword search *)

Section LikeFacts.

Lemma like_percent (p text : string) :
  like (String "%" p) text
  = like p text
    || match text with
       | EmptyString => false
       | String _ rest => like (String "%" p) rest
       end.
Proof. destruct text; reflexivity. Qed.

Lemma like_literal (c : ascii) (p text : string) :
  Ascii.eqb c "%"%char = false ->
  like (String c p) text
  = match text with
    | EmptyString => false
    | String d rest => (Ascii.eqb c "_"%char || Ascii.eqb c d) && like p rest
    end.
Proof. intros Hc. simpl. rewrite Hc. reflexivity. Qed.

Lemma like_percent_always (p : string) :
  (forall text, like p text = true) ->
  forall text, like (String "%" p) text = true.
Proof. intros Hp text. rewrite like_percent, Hp. reflexivity. Qed.

Lemma like_one_percent (text : string) : like "%" text = true.
Proof.
  induction text as [|c text IH]; [reflexivity|].
  rewrite like_percent, IH. apply orb_true_r.
Qed.

Lemma prefix_cons (c d : ascii) (kw text : string) :
  String.prefix (String c kw) (String d text)
  = Ascii.eqb c d && String.prefix kw text.
Proof.
  simpl. destruct (ascii_dec c d) as [E|E].
  - subst. now rewrite Ascii.eqb_refl.
  - apply Ascii.eqb_neq in E. now rewrite E.
Qed.

Lemma prefix_empty (text : string) : String.prefix EmptyString text = true.
Proof. destruct text; reflexivity. Qed.

Lemma like_keyword_prefix (kw : string) :
  wildcard_free kw = true ->
  forall text, like (kw ++ "%") text = String.prefix kw text.
Proof.
  induction kw as [|c kw IH]; intros Hw text.
  - simpl append. rewrite like_one_percent, prefix_empty. reflexivity.
  - simpl in Hw. apply andb_true_iff in Hw as [Hc Hw].
    apply andb_true_iff in Hc as [Hp Hu].
    apply negb_true_iff in Hp. apply negb_true_iff in Hu.
    simpl append. rewrite like_literal by exact Hp.
    destruct text as [|d text]; [reflexivity|].
    rewrite prefix_cons, Hu, IH by exact Hw. reflexivity.
Qed.

Lemma like_keyword_contains (kw : string) :
  wildcard_free kw = true ->
  forall text, like (String "%" (kw ++ "%")) text = contains kw text.
Proof.
  intros Hw. induction text as [|d text IH].
  - rewrite like_percent, like_keyword_prefix by exact Hw. reflexivity.
  - rewrite like_percent, like_keyword_prefix, IH by exact Hw. reflexivity.
Qed.

Lemma sql_lower_app (a b : string) :
  sql_lower (a ++ b) = sql_lower a ++ sql_lower b.
Proof. induction a as [|c a IH]; simpl; [reflexivity|now rewrite IH]. Qed.

Lemma sql_lower_char_wildcards (c : ascii) :
  Ascii.eqb (sql_lower_char c) "%"%char = Ascii.eqb c "%"%char
  /\ Ascii.eqb (sql_lower_char c) "_"%char = Ascii.eqb c "_"%char.
Proof.
  destruct c as [[] [] [] [] [] [] [] []]; split; reflexivity.
Qed.

Lemma wildcard_free_sql_lower (kw : string) :
  wildcard_free (sql_lower kw) = wildcard_free kw.
Proof.
  induction kw as [|c kw IH]; simpl; [reflexivity|].
  destruct (sql_lower_char_wildcards c) as [-> ->]. now rewrite IH.
Qed.

Lemma ilike_keyword (column kw : string) :
  wildcard_free kw = true ->
  ilike column ("%" ++ kw ++ "%")
  = contains (sql_lower kw) (sql_lower column).
Proof.
  intros Hw. unfold ilike.
  change ("%" ++ kw ++ "%") with (String "%" (kw ++ "%")).
  cbn [sql_lower]. rewrite sql_lower_app.
  change (sql_lower_char "%") with "%"%char.
  change (sql_lower "%") with "%".
  apply like_keyword_contains. now rewrite wildcard_free_sql_lower.
Qed.

End LikeFacts.

(** X20.  [search_jobs] returns at most [limit] stored jobs.  For a
    keyword without the characters [%] and [_], the jobs found (with a
    limit that does not cut) are exactly the stored jobs whose title or
    company contains the keyword, letters A-Z compared without regard to
    case.  The empty keyword, and the keyword [%], match every job: the
    keyword is spliced into a [LIKE] pattern, so its [%] is a wildcard. *)
Theorem search_jobs_spec (s : Store) (keyword : string) (limit : nat) :
  List.length (search_jobs s keyword limit) <= limit
  /\ (forall j, In j (search_jobs s keyword limit) -> In j (jobs s))
  /\ (wildcard_free keyword = true ->
      forall j,
        In j (search_jobs s keyword (List.length (jobs s)))
        <-> In j (jobs s)
            /\ (contains (sql_lower keyword) (sql_lower (Job.title j)) = true
                \/ contains (sql_lower keyword) (sql_lower (Job.company j))
                   = true))
  /\ (keyword = EmptyString \/ keyword = "%" ->
      search_jobs s keyword limit = firstn limit (jobs s)).
Proof.
  unfold search_jobs. split; [apply firstn_le_length|].
  split; [|split].
  - intros j Hin. apply firstn_In_list in Hin. now apply filter_In in Hin.
  - intros Hw j.
    rewrite firstn_all2 by apply filter_length_le.
    rewrite filter_In, orb_true_iff, !ilike_keyword by exact Hw.
    reflexivity.
  - intros Hk. f_equal.
    assert (Hall : forall text, ilike text ("%" ++ keyword ++ "%") = true).
    { intros text. unfold ilike. destruct Hk as [-> | ->].
      - change (sql_lower ("%" ++ EmptyString ++ "%")) with "%%".
        apply like_percent_always, like_one_percent.
      - change (sql_lower ("%" ++ "%" ++ "%")) with "%%%".
        apply like_percent_always, like_percent_always, like_one_percent. }
    induction (jobs s) as [|j l IH]; [reflexivity|].
    cbn [filter]. rewrite Hall. cbn [orb]. now rewrite IH.
Qed.

Lemma search_jobs_spec_witness :
  In job_42 (search_jobs (mkStore [job_42] []) "ENGINEER" 1).
Proof.
  apply (proj1 (proj2 (proj2 (search_jobs_spec (mkStore [job_42] [])
                                               "ENGINEER" 1))));
    [reflexivity|].
  split; [left; reflexivity|]. left. vm_compute. reflexivity.
Defined.

(** * Further properties: creating, then updating; submitting *)

(** X21.  The row [create_application] returns can be updated through its
    id at once: its id is greater than every id in the table, the update
    finds exactly that row (never an older one), returns it with the new
    status written, and the table is the old one followed by the updated
    row. *)
Theorem create_then_update (s : Store) (now now' : datetime) (job_id : nat)
        (st0 st : ApplicationStatus) (cl r n e : option string) :
  let a := fst (create_application now s job_id st0 cl r n) in
  let s1 := snd (create_application now s job_id st0 cl r n) in
  (forall old, In old (applications s) ->
     Application.id old < Application.id a)
  /\ Application.job_id a = job_id
  /\ Application.status a = value st0
  /\ update_application_status now' s1 (Application.id a) st e
     = (Returned (Some (write_status now' st e a)),
        mkStore (jobs s) (applications s ++ [write_status now' st e a])).
Proof.
  intros a s1.
  assert (Hid : Application.id a
                = next_id (map Application.id (applications s)))
    by reflexivity.
  split; [|split; [reflexivity|split; [reflexivity|]]].
  - intros old Hin. rewrite Hid. apply next_id_above. now apply in_map.
  - unfold update_application_status.
    change (applications s1) with (applications s ++ [a])%list.
    rewrite (find_fresh_row _ a Hid), (replace_fresh_row _ a _ Hid).
    reflexivity.
Qed.

Lemma create_then_update_witness :
  let old := Application.mk 1 7 "easy_apply" (Some 1) None None None None in
  Application.id old
  < Application.id
      (fst (create_application 5 store_one_submitted 7 PENDING None None
                               None)).
Proof.
  intros old.
  apply (proj1 (create_then_update store_one_submitted 5 6 7 PENDING FAILED
                  None None None None) old).
  left. reflexivity.
Defined.

(** X22.  The form loop reports success as soon as it has clicked a
    button whose label contains "submit": when the first pass finds no
    success marker but such a button, and the click and the wait after it
    return, [_complete_application_modal] returns [True] in the world
    right after that wait, without looking at the page again for a
    confirmation. *)
Theorem submit_click_is_success
        {World Elem : Type} (page : Collaborator World Elem)
        {F : Type} `{Score F}
        (settings : Settings) (resume_selector : option (Profiles F))
        (resumes_dir_join : string -> string) (cover_letter_generator : bool)
        (path_str : string -> string) (job : Job.t)
        (w w1 w2 w3 w4 w5 w6 : World) (btn : Elem) (btn_text : string) :
  wait_for_timeout page 1500 w = (Returned tt, w1) ->
  query_selector page sel_success_indicator w1 = (Returned None, w2) ->
  query_selector page sel_submit_btn w2 = (Returned (Some btn), w3) ->
  inner_text page btn w3 = (Returned btn_text, w4) ->
  contains "submit" (lower btn_text) = true ->
  click page btn w4 = (Returned tt, w5) ->
  wait_for_timeout page 3000 w5 = (Returned tt, w6) ->
  _complete_application_modal page settings resume_selector resumes_dir_join
                              cover_letter_generator path_str job w
  = (Returned true, w6).
Proof.
  intros Hw Hs Hb Ht Hc Hk Hw'.
  unfold _complete_application_modal, max_steps.
  cbn [while_steps Nat.ltb Nat.leb]. unfold modal_step.
  unfold bind, ret. rewrite Hw, Hs, Hb, Ht, Hc, Hk, Hw'. reflexivity.
Qed.

Lemma submit_click_is_success_witness :
  let page :=
    {| start_browser := ret tt;
       get_context := ret tt;
       ensure_logged_in := ret tt;
       close := ret tt;
       goto := fun _ => ret tt;
       wait_for_timeout := fun _ (w : nat) => (Returned tt, S w);
       sleep := fun _ => ret tt;
       utcnow := ret 0;
       query_selector :=
         fun sel => ret (if String.eqb sel sel_submit_btn then Some tt
                         else None);
       query_selector_all := fun _ => ret [];
       elem_query_selector := fun _ _ => ret None;
       inner_text := fun _ => ret "Submit application";
       click := fun _ => ret tt;
       set_input_files := fun _ _ => ret tt;
       fill := fun _ _ => ret tt;
       input_value := fun _ => ret EmptyString;
       get_attribute := fun _ _ => ret None;
       is_checked := fun _ => ret false;
       file_exists := fun _ => ret false;
       generate := fun _ _ _ => ret None |} in
  _complete_application_modal page default_settings (Some two_profiles)
                              resumes_join false (fun p => p) job_42 0
  = (Returned true, 2).
Proof.
  intros page.
  apply (submit_click_is_success page default_settings (Some two_profiles)
           resumes_join false (fun p => p) job_42 0 1 1 1 1 1 2 tt
           "Submit application"); reflexivity.
Defined.
